(** * billy: the router of a slot-based data store (db.go)

    A shallow embedding of [db.go]: the slot-size generators, [Open], [Put],
    [Get], [Delete] and [Close] of the [database] type, together with the
    properties of the key codec, of the best-fit shelf search and of the
    open/close life cycle.

    Conventions.
    - Go's [uint32] and [uint64] are [Z] with the wrap-around written out
      ([wrap32], [wrap64]); Go's [int] is the 64-bit signed integer
      ([wrap_int]).
    - A slice index is a [nat]; indexing a slice out of range is a run-time
      panic, which [outcome] makes explicit.
    - [*shelf] values are handles: the mutable state they point to (files,
      gap lists) lives in a [world] that every shelf operation threads. *)

From Stdlib Require Import ZArith Lia Bool String.
From Stdlib.Strings Require Import Byte.
From stdpp Require Import base list.

Local Open Scope Z_scope.

(** ** Machine integers *)

Definition wrap32 (x : Z) : Z := x mod 2 ^ 32.
Definition wrap64 (x : Z) : Z := x mod 2 ^ 64.

(** Go's [int] on a 64-bit target: two's complement, 64 bits. *)
Definition wrap_int (x : Z) : Z := (x + 2 ^ 63) mod 2 ^ 64 - 2 ^ 63.

Definition max_int : Z := 2 ^ 63 - 1.

(** ** Outcomes of a Go call: a normal return or a run-time panic *)

Inductive panic : Type :=
| BadOptions (min max : Z)          (* panic(fmt.Sprintf("Bad options, ...")) *)
| IndexOutOfRange (index len : Z).  (* runtime error: index out of range *)

Inductive outcome (A : Type) : Type :=
| Returned (a : A)
| Panicked (p : panic).

Arguments Returned {A} a.
Arguments Panicked {A} p.

(** Go [error] values.  The router makes three of its own with [fmt.Errorf];
    every other error comes from the shelf layer and is passed on as is. *)
Inductive error : Type :=
| ErrSlotOrder                  (* "slot sizes must be in increasing order" *)
| ErrTooManyShelves (n : nat)   (* "too many shelves (%d)" *)
| ErrNoShelfFound (size : nat)  (* "no shelf found for size %d" *)
| ErrShelf (msg : string).      (* an error value made by the shelf layer *)

(** ** Slot-size generators *)

(** [SlotSizeFn] is a closure over mutable captured variables: the captured
    state and the code run at each invocation. *)
Record SlotSizeFn : Type := mkSlotSizeFn {
  captured : Type;
  env : captured;
  body : captured -> (Z * bool) * captured
}.

(** One invocation: the pair returned and the closure with its updated
    captured variables. *)
Definition invoke (fn : SlotSizeFn) : (Z * bool) * SlotSizeFn :=
  let '(r, e) := body fn (env fn) in
  (r, mkSlotSizeFn (captured fn) e (body fn)).

(** The results of [n] successive invocations. *)
Fixpoint calls (n : nat) (fn : SlotSizeFn) : list (Z * bool) :=
  match n with
  | O => []
  | S n' => let '(r, fn') := invoke fn in r :: calls n' fn'
  end.

(** The closure as it stands after [n] invocations. *)
Fixpoint after (n : nat) (fn : SlotSizeFn) : SlotSizeFn :=
  match n with
  | O => fn
  | S n' => after n' (snd (invoke fn))
  end.

(** The result of invocation number [n], counted from 0. *)
Definition nth_call (n : nat) (fn : SlotSizeFn) : Z * bool :=
  fst (invoke (after n fn)).

(** [func() (uint32, bool) { ret := v; v += v; return ret, ret >= max }] *)
Definition powerOfTwo_body (max : Z) (v : Z) : (Z * bool) * Z :=
  let ret := v in
  let v := wrap32 (v + v) in
  ((ret, ret >=? max), v).

Definition SlotSizePowerOfTwo (min max : Z) : outcome SlotSizeFn :=
  if min >=? max then Panicked (BadOptions min max)
  else Returned (mkSlotSizeFn Z min (powerOfTwo_body max)).

(** [func() (uint32, bool) { ret := size * i; i++; return uint32(ret), i >= count }] *)
Definition linear_body (size count : Z) (i : Z) : (Z * bool) * Z :=
  let ret := wrap_int (size * i) in
  let i := wrap_int (i + 1) in
  ((wrap32 ret, i >=? count), i).

Definition SlotSizeLinear (size count : Z) : SlotSizeFn :=
  mkSlotSizeFn Z 1 (linear_body size count).

(** The variable [v] captured by [SlotSizePowerOfTwo]'s closure, after [n]
    invocations that found it at [v]. *)
Fixpoint doubled (n : nat) (v : Z) : Z :=
  match n with
  | O => v
  | S n' => doubled n' (wrap32 (v + v))
  end.

(** ** The shelf layer

    [shelf.go] is not among the sources at hand.  The router only needs the
    signatures of what it calls there, so they are the fields of an
    interface: every property below holds for whatever implements it. *)

Definition bytes : Type := list Byte.byte.

Class ShelfLayer : Type := {
  (** what [*shelf] handles point into: files, gap lists, caller state *)
  world : Type;
  shelf : Type;
  (** the field [slotSize uint32] of a shelf *)
  slotSize : shelf -> Z;
  (** the constant [itemHeaderSize] *)
  itemHeaderSize : Z;
  (** [openShelf(path, slotSize, onData, readonly)], returning a shelf or an error *)
  openShelf : string -> Z -> option (Z -> bytes -> world -> world) -> bool ->
              world -> world * (shelf + error);
  (** [func (s *shelf) Put(data) (uint64, error)] *)
  shelf_Put : shelf -> bytes -> world -> world * (Z * option error);
  (** [func (s *shelf) Get(slot) ([]byte, error)] *)
  shelf_Get : shelf -> Z -> world -> world * (bytes * option error);
  (** [func (s *shelf) Delete(slot) error] *)
  shelf_Delete : shelf -> Z -> world -> world * option error;
  (** [func (s *shelf) Close() error] *)
  shelf_Close : shelf -> world -> world * option error
}.

(** ** sort.Search (Go standard library)

    [i, j := 0, n; for i < j { h := int(uint(i+j) >> 1); if !f(h) { i = h + 1 }
    else { j = h } }; return i].  The interval shrinks at every turn, so [n]
    turns are enough (lemma [search_loop_fuel]). *)
Fixpoint search_loop (fuel : nat) (f : nat -> bool) (i j : nat) : nat :=
  match fuel with
  | O => i
  | S fuel' =>
      if (i <? j)%nat then
        let h := ((i + j) / 2)%nat in
        if negb (f h) then search_loop fuel' f (h + 1)%nat j
        else search_loop fuel' f i h
      else i
  end.

Definition Search (n : nat) (f : nat -> bool) : nat := search_loop n f 0%nat n.

(** What [sort.Search] asks of [f]: once true, true up to [n]. *)
Definition monotone_below (n : nat) (f : nat -> bool) : Prop :=
  forall a b : nat, (a <= b)%nat -> (b < n)%nat -> f a = true -> f b = true.

Section Router.
Context `{SL : ShelfLayer}.

(** ** The database *)

Record database : Type := mkDatabase { shelves : list shelf }.

Record Options : Type := mkOptions {
  Path : string;
  Readonly : bool;
  Snappy : bool
}.

(** [type OnDataFn func(key uint64, data []byte)]; [None] is [nil]. *)
Definition OnDataFn : Type := option (Z -> bytes -> world -> world).

(** The key of a slot of shelf [index]: [slot | uint64(index)<<28]. *)
Definition make_key (slot : Z) (index : nat) : Z :=
  Z.lor slot (wrap64 (Z.shiftl (Z.of_nat index) 28)).

Definition wrapShelfDataFn (shelfId : nat) (onData : OnDataFn) : OnDataFn :=
  match onData with
  | None => None
  | Some f => Some (fun slot data => f (make_key slot shelfId) data)
  end.

(** [Close]: the loop over [db.shelves], [err] being the local variable. *)
Fixpoint close_loop (ss : list shelf) (err : option error) (w : world)
  : world * option error :=
  match ss with
  | [] => (w, err)
  | s :: rest =>
      let '(w1, e) := shelf_Close s w in
      close_loop rest (match e with Some _ => e | None => err end) w1
  end.

Definition Close (db : database) (w : world) : world * option error :=
  close_loop (shelves db) None w.

(** The closure given to [sort.Search] in [Put]:
    [len(data)+itemHeaderSize <= int(db.shelves[i].slotSize)].  [Search] only
    asks for indices below [len(db.shelves)] (lemma [search_loop_ext]). *)
Definition fits (db : database) (data : bytes) (i : nat) : bool :=
  match shelves db !! i with
  | Some s => wrap_int (Z.of_nat (length data) + itemHeaderSize) <=? slotSize s
  | None => false
  end.

Definition Put (db : database) (data : bytes) (w : world)
  : world * outcome (Z * option error) :=
  let index := Search (length (shelves db)) (fits db data) in
  if (index =? length (shelves db))%nat then
    (w, Returned (0, Some (ErrNoShelfFound (length data))))
  else
    match shelves db !! index with
    | None => (w, Panicked (IndexOutOfRange (Z.of_nat index)
                                            (Z.of_nat (length (shelves db)))))
    | Some s =>
        let '(w1, (slot, err)) := shelf_Put s data w in
        match err with
        | Some e => (w1, Returned (0, Some e))
        | None => (w1, Returned (make_key slot index, None))
        end
    end.

(** [id := int(key>>28) & 0xfff] *)
Definition shelf_id (key : Z) : Z := Z.land (wrap_int (Z.shiftr key 28)) 0xfff.

(** The slot [Get] asks its shelf for: [key & 0x0FFFFFFF]. *)
Definition get_slot (key : Z) : Z := Z.land key 0x0FFFFFFF.

(** The slot [Delete] asks its shelf for: [key & 0x00FFFFFF]. *)
Definition delete_slot (key : Z) : Z := Z.land key 0x00FFFFFF.

Definition Get (db : database) (key : Z) (w : world)
  : world * outcome (bytes * option error) :=
  let id := shelf_id key in
  match shelves db !! Z.to_nat id with
  | None => (w, Panicked (IndexOutOfRange id (Z.of_nat (length (shelves db)))))
  | Some s => let '(w1, r) := shelf_Get s (get_slot key) w in (w1, Returned r)
  end.

Definition Delete (db : database) (key : Z) (w : world)
  : world * outcome (option error) :=
  let id := shelf_id key in
  match shelves db !! Z.to_nat id with
  | None => (w, Panicked (IndexOutOfRange id (Z.of_nat (length (shelves db)))))
  | Some s => let '(w1, r) := shelf_Delete s (delete_slot key) w in (w1, Returned r)
  end.

(** [Open]: the loop [for !done { ... }], entered with [done = false].  The
    arguments are the local variables [db.shelves], [prevSlotSize] and
    [prevId]; [None] stands for a loop still running when the fuel is
    spent, which [Open_returns] shows does not happen. *)
Fixpoint Open_loop (fuel : nat) (opts : Options) (slotSizeFn : SlotSizeFn)
    (onData : OnDataFn) (db : list shelf) (prevSlotSize prevId : Z) (w : world)
  : option (world * (database + error)) :=
  match fuel with
  | O => None
  | S fuel' =>
      let '((slotSize, done), slotSizeFn') := invoke slotSizeFn in
      if slotSize <=? prevSlotSize then Some (w, inr ErrSlotOrder)
      else
        match openShelf (Path opts) slotSize
                (wrapShelfDataFn (length db) onData) (Readonly opts) w with
        | (w1, inr err) =>
            let '(w2, _) := Close (mkDatabase db) w1 in
            Some (w2, inr err)
        | (w1, inl shelfet) =>
            let db := db ++ [shelfet] in
            let id := Z.land (Z.of_nat (length db)) 0xfff in
            if id <? prevId then
              Some (w1, inr (ErrTooManyShelves (length db)))
            else if done then Some (w1, inl (mkDatabase db))
            else Open_loop fuel' opts slotSizeFn' onData db slotSize id w1
        end
  end.

Definition Open (opts : Options) (slotSizeFn : SlotSizeFn) (onData : OnDataFn)
    (w : world) : option (world * (database + error)) :=
  Open_loop 4096 opts slotSizeFn onData [] 0 0 w.

End Router.

(** ** Limits and Iterate *)

(** [l[i]] for a Go [int] index: a panic when [i] is negative or not below
    [len(l)]. *)
Definition at_index {A : Type} (l : list A) (i : Z) : outcome A :=
  match (if i <? 0 then None else l !! Z.to_nat i) with
  | Some x => Returned x
  | None => Panicked (IndexOutOfRange i (Z.of_nat (length l)))
  end.

(** [smallest := db.shelves[0].slotSize;
     largest := db.shelves[len(db.shelves)-1].slotSize;
     return smallest, largest] *)
Definition Limits `{SL : ShelfLayer} (db : database) : outcome (Z * Z) :=
  match at_index (shelves db) 0 with
  | Panicked p => Panicked p
  | Returned first =>
      match at_index (shelves db) (Z.of_nat (length (shelves db)) - 1) with
      | Panicked p => Panicked p
      | Returned last => Returned (slotSize first, slotSize last)
      end
  end.

(** [for i, b := range db.shelves { b.Iterate(wrapShelfDataFn(i, onData)) }],
    from index [i] on.  The method [Iterate] of a shelf is in [shelf.go]; it
    is the argument [shelf_Iterate]. *)
Fixpoint iterate_from `{SL : ShelfLayer}
    (shelf_Iterate : shelf -> OnDataFn -> world -> world)
    (i : nat) (ss : list shelf) (onData : OnDataFn) (w : world) : world :=
  match ss with
  | [] => w
  | b :: rest =>
      iterate_from shelf_Iterate (S i) rest onData
        (shelf_Iterate b (wrapShelfDataFn i onData) w)
  end.

Definition Iterate `{SL : ShelfLayer}
    (shelf_Iterate : shelf -> OnDataFn -> world -> world)
    (db : database) (onData : OnDataFn) (w : world) : world :=
  iterate_from shelf_Iterate 0 (shelves db) onData w.

(** ** What the claims compare the code with *)

(** The last failure in the results of a run of [Close] calls. *)
Fixpoint last_failure (results : list (option error)) : option error :=
  match results with
  | [] => None
  | r :: rest =>
      match last_failure rest with
      | Some e => Some e
      | None => r
      end
  end.

(** Asking every shelf of a list, in order, to close, and keeping each answer. *)
Fixpoint close_each `{SL : ShelfLayer} (ss : list shelf) (w : world)
  : world * list (option error) :=
  match ss with
  | [] => (w, [])
  | s :: rest =>
      let '(w1, e) := shelf_Close s w in
      let '(w2, es) := close_each rest w1 in
      (w2, e :: es)
  end.

(** Slot sizes in strictly ascending order. *)
Definition ascending `{SL : ShelfLayer} (ss : list shelf) : Prop :=
  ∀ (i j : nat) (s t : shelf),
    ss !! i = Some s → ss !! j = Some t → (i < j)%nat → slotSize s < slotSize t.

(** Opening one shelf per size, in order, behind the shelves [db]: the
    calls to [openShelf] that [Open] makes for these sizes.  [None] when one
    of them fails. *)
Fixpoint open_all `{SL : ShelfLayer} (opts : Options) (onData : OnDataFn)
    (sizes : list Z) (db : list shelf) (w : world) : world * option (list shelf) :=
  match sizes with
  | [] => (w, Some db)
  | size :: rest =>
      match openShelf (Path opts) size (wrapShelfDataFn (length db) onData)
              (Readonly opts) w with
      | (w1, inl s) => open_all opts onData rest (db ++ [s]) w1
      | (w1, inr _) => (w1, None)
      end
  end.

(** A shelf layer whose [openShelf] gives the shelf the slot size it was
    asked for. *)
Definition honours_size `{SL : ShelfLayer} : Prop :=
  forall path size cb readonly w w' s,
    openShelf path size cb readonly w = (w', inl s) -> slotSize s = size.

(** The first [m] calls of a generator are acceptable to [Open] after a
    previous size [prev]: none says done, and the sizes increase from above
    [prev]. *)
Definition good_prefix (m : nat) (prev : Z) (fn : SlotSizeFn) : Prop :=
  (forall k, (k < m)%nat -> snd (nth_call k fn) = false) /\
  (forall k, (k < m)%nat ->
     (match k with O => prev | S k' => fst (nth_call k' fn) end) < fst (nth_call k fn)).

(** What [Put] does with the shelf it hands the payload to. *)
Definition handed_to `{SL : ShelfLayer} (s : shelf) (i : nat) (p : bytes) (w : world)
  : world * outcome (Z * option error) :=
  (fst (shelf_Put s p w),
   Returned match snd (shelf_Put s p w) with
            | (_, Some e) => (0, Some e)
            | (slot, None) => (make_key slot i, None)
            end).

(** The shelf index and the slot of a key as the key layout defines them:
    bits 28 to 39 and bits 0 to 27. *)
Definition decode (key : Z) : Z * Z :=
  (Z.land (Z.shiftr key 28) 0xFFF, Z.land key 0x0FFFFFFF).

(** ** A recording shelf layer

    An implementation of the interface that keeps a log of the calls it
    receives, used to run the router on concrete inputs.  A shelf is known
    by its slot size; [faults] lists the shelves whose storage fails, with
    the error they report; a shelf hands out slots 0, 1, 2, ... *)

Inductive event : Type :=
| EvOpen (size : Z) (readonly : bool)
| EvPut (size : Z) (data : bytes)
| EvGet (size slot : Z)
| EvDelete (size slot : Z)
| EvClose (size : Z).

Record rec_world : Type := mkRecWorld {
  log : list event;
  faults : list (Z * string)
}.

Definition record (ev : event) (w : rec_world) : rec_world :=
  mkRecWorld (log w ++ [ev]) (faults w).

Fixpoint fault_of (size : Z) (fs : list (Z * string)) : option error :=
  match fs with
  | [] => None
  | (sz, msg) :: rest => if sz =? size then Some (ErrShelf msg) else fault_of size rest
  end.

(** The payloads put on shelf [size], oldest first. *)
Fixpoint puts_of (size : Z) (evs : list event) : list bytes :=
  match evs with
  | [] => []
  | EvPut sz data :: rest =>
      if sz =? size then data :: puts_of size rest else puts_of size rest
  | _ :: rest => puts_of size rest
  end.

(** The shelves opened and not closed since, oldest first. *)
Fixpoint open_handles (evs : list event) (opened : list Z) : list Z :=
  match evs with
  | [] => opened
  | EvOpen sz _ :: rest => open_handles rest (opened ++ [sz])
  | EvClose sz :: rest => open_handles rest (filter (fun x => x ≠ sz) opened)
  | _ :: rest => open_handles rest opened
  end.

#[export] Instance recorder : ShelfLayer := {|
  world := rec_world;
  shelf := Z;
  slotSize := fun s => s;
  itemHeaderSize := 4;
  openShelf := fun _ size _ ro w =>
    match fault_of size (faults w) with
    | Some e => (w, inr e)
    | None => (record (EvOpen size ro) w, inl size)
    end;
  shelf_Put := fun s data w =>
    match fault_of s (faults w) with
    | Some e => (record (EvPut s data) w, (0, Some e))
    | None => (record (EvPut s data) w,
               (Z.of_nat (length (puts_of s (log w))), None))
    end;
  shelf_Get := fun s slot w =>
    match puts_of s (log w) !! Z.to_nat slot with
    | Some data => (record (EvGet s slot) w, (data, None))
    | None => (record (EvGet s slot) w, ([], Some (ErrShelf "no such slot")))
    end;
  shelf_Delete := fun s slot w => (record (EvDelete s slot) w, fault_of s (faults w));
  shelf_Close := fun s w => (record (EvClose s) w, fault_of s (faults w))
|}.

(** A fresh store without faults, and a generator that replays a list. *)
Definition fresh : rec_world := mkRecWorld [] [].

Definition replay (l : list (Z * bool)) : SlotSizeFn :=
  mkSlotSizeFn (list (Z * bool)) l
    (fun l => match l with
              | [] => ((0, true), [])
              | r :: rest => (r, rest)
              end).

Definition opts0 : Options := mkOptions "db" false false.

(** * Properties *)

(** ** Bit fields as quotients and remainders *)

Lemma land_0xfff (x : Z) : Z.land x 0xfff = x mod 2 ^ 12.
Proof. change 0xfff with (Z.ones 12). apply Z.land_ones. lia. Qed.

Lemma land_low28 (x : Z) : Z.land x 0x0FFFFFFF = x mod 2 ^ 28.
Proof. change 0x0FFFFFFF with (Z.ones 28). apply Z.land_ones. lia. Qed.

Lemma land_low24 (x : Z) : Z.land x 0x00FFFFFF = x mod 2 ^ 24.
Proof. change 0x00FFFFFF with (Z.ones 24). apply Z.land_ones. lia. Qed.

Lemma wrap_int_low12 (x : Z) : wrap_int x mod 2 ^ 12 = x mod 2 ^ 12.
Proof. unfold wrap_int. Z.div_mod_to_equations. lia. Qed.

Lemma shelf_id_spec (key : Z) : shelf_id key = (key / 2 ^ 28) mod 2 ^ 12.
Proof.
  unfold shelf_id.
  rewrite land_0xfff, wrap_int_low12, Z.shiftr_div_pow2 by lia.
  reflexivity.
Qed.

Lemma shelf_id_range (key : Z) : 0 <= shelf_id key < 4096.
Proof. rewrite shelf_id_spec. Z.div_mod_to_equations. lia. Qed.

Lemma get_slot_spec (key : Z) : get_slot key = key mod 2 ^ 28.
Proof. apply land_low28. Qed.

Lemma delete_slot_spec (key : Z) : delete_slot key = key mod 2 ^ 24.
Proof. apply land_low24. Qed.

Lemma decode_spec (key : Z) : decode key = (shelf_id key, get_slot key).
Proof.
  unfold decode. rewrite shelf_id_spec, land_0xfff, Z.shiftr_div_pow2 by lia.
  reflexivity.
Qed.

(** A slot below 2^28 and a shifted index have no bit in common, so that
    the [|] of [make_key] is a sum. *)
Lemma make_key_sum (slot : Z) (index : nat) :
  0 <= slot < 2 ^ 28 -> (index < 4096)%nat ->
  make_key slot index = slot + 2 ^ 28 * Z.of_nat index.
Proof.
  intros Hs Hi. unfold make_key, wrap64.
  rewrite Z.shiftl_mul_pow2 by lia.
  rewrite Z.mod_small by lia.
  symmetry. rewrite (Z.mul_comm (2 ^ 28)).
  apply Z.add_nocarry_lor.
  apply Z.bits_inj'. intros n Hn.
  rewrite Z.land_spec, Z.bits_0.
  destruct (Z.lt_ge_cases n 28) as [Hlt | Hge].
  - rewrite Z.mul_pow2_bits_low by lia. apply andb_false_r.
  - rewrite (Z.bits_above_log2 slot n); [reflexivity | lia |].
    destruct (Z.eq_dec slot 0) as [-> | Hnz]; [simpl; lia |].
    apply Z.log2_lt_pow2; [lia |].
    apply Z.lt_le_trans with (2 ^ 28); [lia |].
    apply Z.pow_le_mono_r; lia.
Qed.

(** ** The key codec *)

(** C5. A shelf index below 4096 and a slot below 2^28, packed as
    [slot | index<<28], are read back unchanged by the decoding of [Get]
    ([(key>>28) & 0xFFF] and [key & 0x0FFFFFFF]), and packing what was
    read back gives the key again. *)
Theorem key_codec_roundtrip (index : nat) (slot : Z) :
  (index < 4096)%nat -> 0 <= slot < 2 ^ 28 ->
  let key := make_key slot index in
  decode key = (Z.of_nat index, slot) /\
  shelf_id key = Z.of_nat index /\
  get_slot key = slot /\
  make_key (get_slot key) (Z.to_nat (shelf_id key)) = key.
Proof.
  intros Hi Hs key.
  assert (Hid : shelf_id key = Z.of_nat index).
  { unfold key. rewrite shelf_id_spec, make_key_sum by assumption.
    Z.div_mod_to_equations. lia. }
  assert (Hsl : get_slot key = slot).
  { unfold key. rewrite get_slot_spec, make_key_sum by assumption.
    Z.div_mod_to_equations. lia. }
  rewrite decode_spec, Hid, Hsl, Nat2Z.id. auto.
Qed.

Lemma key_codec_roundtrip_witness :
  decode (make_key 5 3) = (3, 5) /\
  make_key (get_slot (make_key 5 3)) (Z.to_nat (shelf_id (make_key 5 3)))
  = make_key 5 3.
Proof.
  destruct (key_codec_roundtrip 3 5) as (Hd & _ & _ & Hk); [lia | lia |].
  split; [exact Hd | exact Hk].
Defined.

(** [Get] and [Delete] hand the call to the shelf the key names. *)
Lemma Get_delegates `{SL : ShelfLayer} (db : database) (key : Z) (w : world) (s : shelf) :
  shelves db !! Z.to_nat (shelf_id key) = Some s ->
  Get db key w = (fst (shelf_Get s (get_slot key) w),
                  Returned (snd (shelf_Get s (get_slot key) w))).
Proof. intros H. unfold Get. rewrite H. destruct shelf_Get. reflexivity. Qed.

Lemma Delete_delegates `{SL : ShelfLayer} (db : database) (key : Z) (w : world) (s : shelf) :
  shelves db !! Z.to_nat (shelf_id key) = Some s ->
  Delete db key w = (fst (shelf_Delete s (delete_slot key) w),
                     Returned (snd (shelf_Delete s (delete_slot key) w))).
Proof. intros H. unfold Delete. rewrite H. destruct shelf_Delete. reflexivity. Qed.

(** The slot [Delete] passes on is the slot of [Get] cut to 24 bits. *)
Lemma delete_slot_get_slot (key : Z) : delete_slot key = get_slot key mod 2 ^ 24.
Proof. rewrite delete_slot_spec, get_slot_spec. Z.div_mod_to_equations. lia. Qed.

(** C1. [Delete] does not split a key as [Get] does: its mask is
    [0x00FFFFFF], not [0x0FFFFFFF].  For the key of slot 2^24 of shelf 0,
    [Get] asks the shelf for slot 16777216 and [Delete] for slot 0. *)
Theorem Delete_mask_drops_bits_24_to_27 :
  make_key 0x1000000 0 = 0x1000000 /\
  get_slot 0x1000000 = 0x1000000 /\
  delete_slot 0x1000000 = 0 /\
  log (fst (Get (mkDatabase [10]) 0x1000000 fresh)) = [EvGet 10 0x1000000] /\
  log (fst (Delete (mkDatabase [10]) 0x1000000 fresh)) = [EvDelete 10 0].
Proof. repeat split; reflexivity. Qed.

(** C10. Two keys with the same low 40 bits are the same key to [Get] and
    to [Delete]: the same shelf index, the same slot, the same call. *)
Theorem high_key_bits_ignored `{SL : ShelfLayer} (db : database) (k1 k2 : Z) (w : world) :
  k1 mod 2 ^ 40 = k2 mod 2 ^ 40 ->
  shelf_id k1 = shelf_id k2 /\
  get_slot k1 = get_slot k2 /\
  delete_slot k1 = delete_slot k2 /\
  Get db k1 w = Get db k2 w /\
  Delete db k1 w = Delete db k2 w.
Proof.
  intros H.
  assert (Hid : shelf_id k1 = shelf_id k2).
  { rewrite !shelf_id_spec. Z.div_mod_to_equations. lia. }
  assert (Hg : get_slot k1 = get_slot k2).
  { rewrite !get_slot_spec. Z.div_mod_to_equations. lia. }
  assert (Hd : delete_slot k1 = delete_slot k2).
  { rewrite !delete_slot_spec. Z.div_mod_to_equations. lia. }
  unfold Get, Delete. rewrite Hid, Hg, Hd. auto.
Qed.

Lemma high_key_bits_ignored_witness :
  Get (mkDatabase [10; 20]) (5 + 2 ^ 28) fresh
  = Get (mkDatabase [10; 20]) (5 + 2 ^ 28 + 2 ^ 63) fresh /\
  Delete (mkDatabase [10; 20]) (5 + 2 ^ 28) fresh
  = Delete (mkDatabase [10; 20]) (5 + 2 ^ 28 + 2 ^ 63) fresh.
Proof.
  destruct (high_key_bits_ignored (mkDatabase (SL := recorder) [10; 20])
              (5 + 2 ^ 28) (5 + 2 ^ 28 + 2 ^ 63) fresh) as (_ & _ & _ & Hg & Hd);
    [reflexivity |].
  split; [exact Hg | exact Hd].
Defined.

(** ** Keys that name no shelf *)

(** C6, as stated, fails: on a database of one shelf the key [1<<28] names
    shelf 1; [Get] and [Delete] stop in an index-out-of-range panic and
    return nothing, so no error value reaches the caller. *)
Lemma index_error_not_returned :
  Get (mkDatabase [10]) 0x10000000 fresh
  = (fresh, Panicked (IndexOutOfRange 1 1)) /\
  Delete (mkDatabase [10]) 0x10000000 fresh
  = (fresh, Panicked (IndexOutOfRange 1 1)) /\
  ~ (exists w' data e,
       Get (mkDatabase [10]) 0x10000000 fresh = (w', Returned (data, Some e))) /\
  ~ (exists w' e,
       Delete (mkDatabase [10]) 0x10000000 fresh = (w', Returned (Some e))).
Proof.
  repeat split.
  - intros (w' & data & e & H). discriminate H.
  - intros (w' & e & H). discriminate H.
Qed.

(** C6, amended. When the shelf index of a key is not below the number of
    shelves, [Get] and [Delete] panic at the bounds check of
    [db.shelves[id]]: no shelf is called, nothing is read or written, and
    the panic is what the caller gets. *)
Theorem out_of_range_key_panics `{SL : ShelfLayer} (db : database) (key : Z) (w : world) :
  Z.of_nat (length (shelves db)) <= shelf_id key ->
  Get db key w
  = (w, Panicked (IndexOutOfRange (shelf_id key) (Z.of_nat (length (shelves db))))) /\
  Delete db key w
  = (w, Panicked (IndexOutOfRange (shelf_id key) (Z.of_nat (length (shelves db))))).
Proof.
  intros H. unfold Get, Delete.
  rewrite (lookup_ge_None_2 (shelves db) (Z.to_nat (shelf_id key))) by lia.
  auto.
Qed.

Lemma out_of_range_key_panics_witness :
  Get (mkDatabase [10; 20]) (7 + 2 * 2 ^ 28) fresh
  = (fresh, Panicked (IndexOutOfRange 2 2)) /\
  Delete (mkDatabase [10; 20]) (7 + 2 * 2 ^ 28) fresh
  = (fresh, Panicked (IndexOutOfRange 2 2)).
Proof.
  apply (out_of_range_key_panics (mkDatabase (SL := recorder) [10; 20]) (7 + 2 * 2 ^ 28) fresh).
  vm_compute. discriminate.
Defined.

(** ** The slot-size generators *)

Lemma wrap_int_small (x : Z) : - 2 ^ 63 <= x <= max_int -> wrap_int x = x.
Proof. unfold wrap_int, max_int. intros H. rewrite Z.mod_small; lia. Qed.

Lemma wrap32_small (x : Z) : 0 <= x < 2 ^ 32 -> wrap32 x = x.
Proof. apply Z.mod_small. Qed.

Lemma wrap32_range (x : Z) : 0 <= wrap32 x < 2 ^ 32.
Proof. apply Z.mod_pos_bound. lia. Qed.

Lemma nth_call_S (n : nat) (fn : SlotSizeFn) :
  nth_call (S n) fn = nth_call n (snd (invoke fn)).
Proof. reflexivity. Qed.

Lemma calls_nth_call (n k : nat) (fn : SlotSizeFn) :
  (k < n)%nat -> calls n fn !! k = Some (nth_call k fn).
Proof.
  revert k fn. induction n as [| n IH]; intros k fn Hk; [lia |].
  simpl. destruct (invoke fn) as [r fn'] eqn:E.
  destruct k as [| k].
  - unfold nth_call. simpl. rewrite E. reflexivity.
  - simpl. rewrite nth_call_S, E. apply IH. lia.
Qed.

(** [SlotSizeLinear]: invocation number [n] (from 0) finds [i = n + 1],
    returns [uint32(size * i)] and compares the incremented [i] with
    [count]. *)
Lemma linear_nth_call_from (size count i : Z) (n : nat) :
  0 <= i -> i + Z.of_nat n + 1 <= max_int ->
  nth_call n (mkSlotSizeFn Z i (linear_body size count))
  = (wrap32 (wrap_int (size * (i + Z.of_nat n))), i + Z.of_nat n + 1 >=? count).
Proof.
  revert i. induction n as [| n IH]; intros i Hi Hmax.
  - unfold nth_call, invoke, linear_body. simpl.
    rewrite (wrap_int_small (i + 1)) by (unfold max_int in *; lia).
    rewrite Z.add_0_r. reflexivity.
  - rewrite nth_call_S. unfold invoke at 1, linear_body at 1. simpl body. simpl env.
    cbv beta iota zeta. simpl snd.
    rewrite (wrap_int_small (i + 1)) by (unfold max_int in *; lia).
    rewrite IH by lia.
    replace (i + 1 + Z.of_nat n) with (i + Z.of_nat (S n)) by lia.
    reflexivity.
Qed.

Lemma linear_nth_call (size count : Z) (n : nat) :
  Z.of_nat n + 2 <= max_int ->
  nth_call n (SlotSizeLinear size count)
  = (wrap32 (wrap_int (size * (Z.of_nat n + 1))), Z.of_nat n + 2 >=? count).
Proof.
  intros H. unfold SlotSizeLinear.
  rewrite linear_nth_call_from by lia.
  replace (1 + Z.of_nat n) with (Z.of_nat n + 1) by lia.
  replace (Z.of_nat n + 1 + 1) with (Z.of_nat n + 2) by lia.
  reflexivity.
Qed.

(** C3. [SlotSizeLinear(10, 3)] says [done] at its second call, not at its
    third: the closure increments [i] before it compares it with [count].
    [Open] therefore makes two shelves, of sizes 10 and 20. *)
Theorem SlotSizeLinear_done_one_call_early :
  calls 3 (SlotSizeLinear 10 3) = [(10, false); (20, true); (30, true)] /\
  nth_call 1 (SlotSizeLinear 10 3) = (20, true) /\
  Open opts0 (SlotSizeLinear 10 3) None fresh
  = Some (mkRecWorld [EvOpen 10 false; EvOpen 20 false] [],
          inl (mkDatabase [10; 20])).
Proof. repeat split; reflexivity. Qed.

Lemma doubled_S (n : nat) (v : Z) : doubled (S n) v = wrap32 (2 * doubled n v).
Proof.
  revert v. induction n as [| n IH]; intros v.
  - simpl. f_equal. lia.
  - change (doubled (S (S n)) v) with (doubled (S n) (wrap32 (v + v))).
    rewrite IH. reflexivity.
Qed.

Lemma powerOfTwo_nth_call (max v : Z) (n : nat) :
  nth_call n (mkSlotSizeFn Z v (powerOfTwo_body max))
  = (doubled n v, doubled n v >=? max).
Proof.
  revert v. induction n as [| n IH]; intros v.
  - reflexivity.
  - rewrite nth_call_S. unfold invoke at 1, powerOfTwo_body at 1. simpl.
    apply IH.
Qed.

Lemma doubled_range (n : nat) (v : Z) : 0 <= v < 2 ^ 32 -> 0 <= doubled n v < 2 ^ 32.
Proof.
  intros Hv. destruct n as [| n]; [exact Hv |].
  rewrite doubled_S. apply wrap32_range.
Qed.



(** ** Close *)

(** [last_failure] picks the failure after which every answer is a success. *)
Lemma last_failure_none (rs : list (option error)) :
  Forall (fun r => r = None) rs -> last_failure rs = None.
Proof.
  induction 1 as [| r rs Hr _ IH]; [reflexivity |].
  simpl. rewrite IH. exact Hr.
Qed.

Lemma last_failure_app (pre post : list (option error)) (e : error) :
  Forall (fun r => r = None) post ->
  last_failure (pre ++ Some e :: post) = Some e.
Proof.
  intros Hpost. induction pre as [| r pre IH].
  - simpl. rewrite (last_failure_none post Hpost). reflexivity.
  - simpl. rewrite IH. reflexivity.
Qed.

Lemma close_each_length `{SL : ShelfLayer} (ss : list shelf) (w : world) :
  length (snd (close_each ss w)) = length ss.
Proof.
  revert w. induction ss as [| s ss IH]; intros w; [reflexivity |].
  simpl. destruct (shelf_Close s w) as [w1 e].
  specialize (IH w1). destruct (close_each ss w1) as [w2 es].
  simpl in *. congruence.
Qed.

(** The answer at position [i] is the answer of shelf [i], asked in the
    world the shelves before it left behind. *)
Lemma close_each_lookup `{SL : ShelfLayer} (ss : list shelf) (w : world) (i : nat) (s : shelf) :
  ss !! i = Some s ->
  snd (close_each ss w) !! i
  = Some (snd (shelf_Close s (fst (close_each (take i ss) w)))).
Proof.
  revert w i. induction ss as [| s0 ss IH]; intros w i Hi; [discriminate |].
  destruct i as [| i]; simpl in *.
  - injection Hi as ->. destruct (shelf_Close s w) as [w1 e].
    destruct (close_each ss w1). reflexivity.
  - destruct (shelf_Close s0 w) as [w1 e].
    specialize (IH w1 i Hi).
    destruct (close_each ss w1) as [w2 es].
    destruct (close_each (take i ss) w1) as [w3 es']. simpl in *. exact IH.
Qed.

Lemma close_loop_close_each `{SL : ShelfLayer} (ss : list shelf) (err : option error) (w : world) :
  close_loop ss err w
  = (fst (close_each ss w),
     match last_failure (snd (close_each ss w)) with
     | Some e => Some e
     | None => err
     end).
Proof.
  revert err w. induction ss as [| s ss IH]; intros err w; [reflexivity |].
  simpl. destruct (shelf_Close s w) as [w1 e].
  rewrite IH. destruct (close_each ss w1) as [w2 es]. simpl.
  destruct (last_failure es); [reflexivity |].
  destruct e; reflexivity.
Qed.

(** C9. [Close] asks every shelf to close, in order and whatever the
    earlier ones answered, and returns the error of the last shelf that
    failed ([nil] when none did). *)
Theorem Close_returns_last_failure `{SL : ShelfLayer} (db : database) (w : world) :
  let results := snd (close_each (shelves db) w) in
  Close db w = (fst (close_each (shelves db) w), last_failure results) /\
  length results = length (shelves db) /\
  (forall i s, shelves db !! i = Some s ->
     results !! i
     = Some (snd (shelf_Close s (fst (close_each (take i (shelves db)) w))))) /\
  (forall pre post e,
     results = pre ++ Some e :: post -> Forall (fun r => r = None) post ->
     snd (Close db w) = Some e) /\
  (Forall (fun r => r = None) results -> snd (Close db w) = None).
Proof.
  intros results.
  assert (HC : Close db w = (fst (close_each (shelves db) w), last_failure results)).
  { unfold Close. rewrite close_loop_close_each.
    fold results. destruct (last_failure results); reflexivity. }
  split; [exact HC |].
  split; [apply close_each_length |].
  split; [intros i s Hi; apply close_each_lookup; exact Hi |].
  split.
  - intros pre post e Hr Hpost. rewrite HC, Hr. simpl.
    apply last_failure_app. exact Hpost.
  - intros Hall. rewrite HC. simpl. apply last_failure_none. exact Hall.
Qed.

Lemma Close_returns_last_failure_witness :
  Close (mkDatabase [10; 20; 30]) (mkRecWorld [] [(10, "a"); (20, "b")]%string)
  = (mkRecWorld [EvClose 10; EvClose 20; EvClose 30] [(10, "a"); (20, "b")]%string,
     Some (ErrShelf "b")).
Proof.
  pose proof (Close_returns_last_failure (mkDatabase (SL := recorder) [10; 20; 30])
                (mkRecWorld [] [(10, "a"); (20, "b")]%string)) as (HC & _).
  rewrite HC. reflexivity.
Defined.

(** ** Open *)

Lemma shelf_count_masked (n : nat) :
  Z.land (Z.of_nat n) 0xfff = Z.of_nat n mod 4096.
Proof. rewrite land_0xfff. reflexivity. Qed.

(** The loop of [Open] as entered with [n] shelves, [n] below 4096, and
    [prevId = n]: it returns within [4096 - n] turns, and a database it
    returns has fewer than 4096 shelves.  Adding shelf number 4096 makes
    the masked count fall from 4095 to 0, which ends the loop. *)
Lemma Open_loop_bounded `{SL : ShelfLayer} (fuel : nat) (opts : Options)
    (fn : SlotSizeFn) (onData : OnDataFn) (db : list shelf) (prev prevId : Z)
    (w : world) :
  prevId = Z.of_nat (length db) ->
  (length db <= 4095)%nat -> (4096 <= fuel + length db)%nat ->
  exists w' r,
    Open_loop fuel opts fn onData db prev prevId w = Some (w', r) /\
    forall d, r = inl d ->
      (length db < length (shelves d))%nat /\ (length (shelves d) <= 4095)%nat.
Proof.
  revert fn db prev prevId w.
  induction fuel as [| fuel IH]; intros fn db prev prevId w -> Hlen Hfuel; [lia |].
  cbn [Open_loop].
  destruct (invoke fn) as [[slotSize done] fn'].
  destruct (slotSize <=? prev).
  { eexists _, _. split; [reflexivity | discriminate]. }
  destruct (openShelf _ _ _ _ w) as [w1 [shelfet | err]].
  2:{ destruct (Close _ w1) as [w2 ?].
      eexists _, _. split; [reflexivity | discriminate]. }
  rewrite shelf_count_masked, length_app. cbn [length].
  destruct (Nat.eq_dec (length db) 4095%nat) as [E | NE].
  - replace (Z.of_nat (length db + 1)) with 4096 by lia.
    change (4096 mod 4096) with 0.
    destruct (Z.ltb_spec 0 (Z.of_nat (length db))); [| lia].
    eexists _, _. split; [reflexivity | discriminate].
  - rewrite Z.mod_small by lia.
    destruct (Z.ltb_spec (Z.of_nat (length db + 1)) (Z.of_nat (length db))); [lia |].
    destruct done.
    + eexists _, _. split; [reflexivity |].
      intros d [= <-]. cbn [shelves]. rewrite length_app. cbn [length]. lia.
    + destruct (IH fn' (db ++ [shelfet]) slotSize (Z.of_nat (length db + 1)) w1)
        as (w' & r & HO & Hr).
      * rewrite length_app. reflexivity.
      * rewrite length_app. cbn [length]. lia.
      * rewrite length_app. cbn [length]. lia.
      * exists w', r. split; [exact HO |].
        intros d Hd. specialize (Hr d Hd).
        rewrite length_app in Hr. cbn [length] in Hr. lia.
Qed.

(** [Open] always returns, and a database it returns has at least one and
    at most 4095 shelves: the fuel of its loop is never spent. *)
Lemma Open_bounded `{SL : ShelfLayer} (opts : Options) (fn : SlotSizeFn)
    (onData : OnDataFn) (w : world) :
  exists w' r,
    Open opts fn onData w = Some (w', r) /\
    forall d, r = inl d -> (1 <= length (shelves d) <= 4095)%nat.
Proof.
  destruct (Open_loop_bounded 4096 opts fn onData [] 0 0 w eq_refl)
    as (w' & r & H & Hr).
  - apply Nat.le_0_l.
  - apply Nat.le_add_r.
  - exists w', r. split; [exact H |].
    intros d Hd. destruct (Hr d Hd) as [H1 H2].
    split; [exact H1 | exact H2].
Qed.

Lemma Open_returns `{SL : ShelfLayer} (opts : Options) (fn : SlotSizeFn)
    (onData : OnDataFn) (w : world) :
  exists w' r, Open opts fn onData w = Some (w', r).
Proof. destruct (Open_bounded opts fn onData w) as (w' & r & H & _). eauto. Qed.

Lemma Open_shelf_count `{SL : ShelfLayer} (opts : Options) (fn : SlotSizeFn)
    (onData : OnDataFn) (w w' : world) (db : database) :
  Open opts fn onData w = Some (w', inl db) ->
  (1 <= length (shelves db) <= 4095)%nat.
Proof.
  intros HO.
  destruct (Open_bounded opts fn onData w) as (w1 & r & H & Hr).
  rewrite HO in H. injection H as <- <-.
  exact (Hr db eq_refl).
Qed.



(** C2. With a generator that yields (30,false) and then (20,true), [Open]
    returns the ordering error and leaves the shelf it opened for size 30
    open: that [return] does not call [db.Close()].  The [return] taken
    when [openShelf] fails does: with a store that cannot open size 40,
    the shelf of size 30 is closed before the error is returned. *)
Theorem Open_bad_order_leaves_shelf_open :
  Open opts0 (replay [(30, false); (20, true)]) None fresh
  = Some (mkRecWorld [EvOpen 30 false] [], inr ErrSlotOrder) /\
  open_handles [EvOpen 30 false] [] = [30] /\
  Open opts0 (replay [(30, false); (40, true)]) None (mkRecWorld [] [(40, "io"%string)])
  = Some (mkRecWorld [EvOpen 30 false; EvClose 30] [(40, "io"%string)],
          inr (ErrShelf "io")) /\
  open_handles [EvOpen 30 false; EvClose 30] [] = [].
Proof. repeat split; reflexivity. Qed.


(** The same on every shelf layer: when the second size is not above the
    first, the world [Open] leaves is the one [openShelf] made, with the
    first shelf in it and no call to its [Close]. *)
Lemma Open_loop_bad_order `{SL : ShelfLayer} (fuel : nat) (opts : Options)
    (fn fn1 fn2 : SlotSizeFn) (onData : OnDataFn) (w w1 : world)
    (s1 s2 : Z) (d : bool) (sh : shelf) :
  invoke fn = ((s1, false), fn1) -> 0 < s1 ->
  openShelf (Path opts) s1 (wrapShelfDataFn 0 onData) (Readonly opts) w = (w1, inl sh) ->
  invoke fn1 = ((s2, d), fn2) -> s2 <= s1 ->
  Open_loop (S (S fuel)) opts fn onData [] 0 0 w = Some (w1, inr ErrSlotOrder).
Proof.
  intros Hfn Hs1 Hopen Hfn1 Hs2.
  cbn [Open_loop]. rewrite Hfn.
  destruct (Z.leb_spec s1 0); [lia |].
  cbn [length]. rewrite Hopen. cbn [app length].
  change (Z.land (Z.of_nat 1) 0xfff <? 0) with false. cbn iota.
  rewrite Hfn1.
  destruct (Z.leb_spec s2 s1); [reflexivity | lia].
Qed.

Lemma Open_bad_order_world `{SL : ShelfLayer} (opts : Options)
    (fn fn1 fn2 : SlotSizeFn) (onData : OnDataFn) (w w1 : world)
    (s1 s2 : Z) (d : bool) (sh : shelf) :
  invoke fn = ((s1, false), fn1) -> 0 < s1 ->
  openShelf (Path opts) s1 (wrapShelfDataFn 0 onData) (Readonly opts) w = (w1, inl sh) ->
  invoke fn1 = ((s2, d), fn2) -> s2 <= s1 ->
  Open opts fn onData w = Some (w1, inr ErrSlotOrder).
Proof. exact (Open_loop_bad_order 4094 opts fn fn1 fn2 onData w w1 s1 s2 d sh). Qed.

(** The ceiling at work.  On a store where [openShelf] does not fail (in
    the worlds [I] holds of), a generator whose first 4096 sizes increase
    and that does not say [done] among them gets the "too many shelves"
    error when shelf number 4096 has been opened. *)
Lemma Open_loop_too_many `{SL : ShelfLayer} (I : world -> Prop) (opts : Options)
    (onData : OnDataFn) :
  (forall size cb w, I w ->
     exists w' s, openShelf (Path opts) size cb (Readonly opts) w = (w', inl s) /\ I w') ->
  forall (fuel : nat) (fn : SlotSizeFn) (db : list shelf) (prev prevId : Z) (w : world),
    prevId = Z.of_nat (length db) -> I w ->
    (length db <= 4095)%nat -> (4096 <= fuel + length db)%nat ->
    (forall k, (k + length db < 4096)%nat -> snd (nth_call k fn) = false) ->
    prev < fst (nth_call 0 fn) ->
    (forall k, (S k + length db < 4096)%nat ->
               fst (nth_call k fn) < fst (nth_call (S k) fn)) ->
    exists w', Open_loop fuel opts fn onData db prev prevId w
               = Some (w', inr (ErrTooManyShelves 4096)).
Proof.
  intros Hopen. induction fuel as [| fuel IH];
    intros fn db prev prevId w -> HI Hlen Hfuel Hflag Hfirst Hinc; [lia |].
  cbn [Open_loop].
  assert (H0 : nth_call 0 fn = fst (invoke fn)) by reflexivity.
  pose proof (Hflag 0%nat ltac:(lia)) as Hdone. rewrite H0 in Hfirst, Hdone.
  assert (Hnext : forall k, nth_call (S k) fn = nth_call k (snd (invoke fn)))
    by (intros k; apply nth_call_S).
  destruct (invoke fn) as [[slotSize done] fn']. cbn [fst snd] in *. subst done.
  destruct (Z.leb_spec slotSize prev); [lia |].
  destruct (Hopen slotSize (wrapShelfDataFn (length db) onData) w HI)
    as (w1 & shelfet & -> & HI1).
  rewrite shelf_count_masked, length_app. cbn [length].
  destruct (Nat.eq_dec (length db) 4095%nat) as [E | NE].
  - replace (Z.of_nat (length db + 1)) with 4096 by lia.
    change (4096 mod 4096) with 0.
    destruct (Z.ltb_spec 0 (Z.of_nat (length db))); [| lia].
    exists w1. rewrite E. reflexivity.
  - rewrite Z.mod_small by lia.
    destruct (Z.ltb_spec (Z.of_nat (length db + 1)) (Z.of_nat (length db))); [lia |].
    apply IH.
    + rewrite length_app. reflexivity.
    + exact HI1.
    + rewrite length_app. cbn [length]. lia.
    + rewrite length_app. cbn [length]. lia.
    + intros k Hk. rewrite length_app in Hk. cbn [length] in Hk.
      rewrite <- Hnext. apply Hflag. lia.
    + rewrite <- Hnext.
      specialize (Hinc 0%nat ltac:(lia)). rewrite H0 in Hinc. exact Hinc.
    + intros k Hk. rewrite length_app in Hk. cbn [length] in Hk.
      rewrite <- !Hnext. apply Hinc. lia.
Qed.

(** X25. A generator whose first 4096 sizes increase from above 0 with no
    done among them, on a store where [openShelf] does not fail, makes
    [Open] return the "too many shelves (4096)" error: no database of 4096
    shelves is made. *)
Lemma Open_too_many_shelves `{SL : ShelfLayer} (I : world -> Prop) (opts : Options)
    (fn : SlotSizeFn) (onData : OnDataFn) (w : world) :
  (forall size cb w, I w ->
     exists w' s, openShelf (Path opts) size cb (Readonly opts) w = (w', inl s) /\ I w') ->
  I w ->
  (forall k, (k < 4096)%nat -> snd (nth_call k fn) = false) ->
  0 < fst (nth_call 0 fn) ->
  (forall k, (S k < 4096)%nat -> fst (nth_call k fn) < fst (nth_call (S k) fn)) ->
  exists w', Open opts fn onData w = Some (w', inr (ErrTooManyShelves 4096)).
Proof.
  intros Hopen HI Hflag Hfirst Hinc.
  apply (Open_loop_too_many I opts onData Hopen 4096 fn [] 0 0 w eq_refl HI).
  - apply Nat.le_0_l.
  - apply Nat.le_add_r.
  - intros k Hk. apply Hflag. cbn [length] in Hk. lia.
  - exact Hfirst.
  - intros k Hk. apply Hinc. cbn [length] in Hk. lia.
Qed.

(** [SlotSizeLinear(1, 5000)] on a store without faults meets the ceiling. *)
Example Open_4096th_shelf_refused :
  exists w', Open opts0 (SlotSizeLinear 1 5000) None fresh
             = Some (w', inr (ErrTooManyShelves 4096)).
Proof.
  assert (Hcall : forall k : nat, (k < 4096)%nat ->
            nth_call k (SlotSizeLinear 1 5000) = (Z.of_nat k + 1, false)).
  { intros k Hk. rewrite linear_nth_call by (unfold max_int; lia).
    rewrite wrap_int_small by (unfold max_int; lia).
    rewrite wrap32_small by lia.
    destruct (Z.geb_spec (Z.of_nat k + 2) 5000); [lia |].
    f_equal. lia. }
  apply (Open_too_many_shelves (SL := recorder) (fun w => faults w = [])).
  - intros size cb w Hw. simpl. rewrite Hw. simpl. eauto.
  - reflexivity.
  - intros k Hk. rewrite Hcall by lia. reflexivity.
  - rewrite Hcall by lia. simpl. lia.
  - intros k Hk. rewrite !Hcall by lia. simpl. lia.
Defined.

(** ** Put: the best-fit search *)

Lemma midpoint_between (i j : nat) :
  (i < j)%nat -> (i <= (i + j) / 2)%nat /\ ((i + j) / 2 < j)%nat.
Proof.
  intros H. split.
  - apply Nat.div_le_lower_bound; lia.
  - apply Nat.Div0.div_lt_upper_bound; lia.
Qed.

(** [Search] never evaluates [f] at or above [j]. *)
Lemma search_loop_ext (fuel : nat) (f g : nat -> bool) (i j : nat) :
  (forall k, (k < j)%nat -> f k = g k) ->
  search_loop fuel f i j = search_loop fuel g i j.
Proof.
  revert i j. induction fuel as [| fuel IH]; intros i j Hfg; [reflexivity |].
  cbn [search_loop]. destruct (Nat.ltb_spec i j) as [Hij | Hij]; [| reflexivity].
  destruct (midpoint_between i j Hij) as [Hlo Hhi].
  rewrite <- (Hfg _ Hhi).
  destruct (f ((i + j) / 2)%nat); cbn [negb].
  - apply IH. intros k Hk. apply Hfg. lia.
  - apply IH. exact Hfg.
Qed.

(** The loop with enough fuel for its interval: it stops because the
    interval is empty, at the first index where [f] is true. *)
Lemma search_loop_fuel (n fuel : nat) (f : nat -> bool) (i j : nat) :
  monotone_below n f ->
  (i <= j)%nat -> (j <= n)%nat -> (j - i <= fuel)%nat ->
  (forall k, (k < i)%nat -> f k = false) ->
  (forall k, (j <= k)%nat -> (k < n)%nat -> f k = true) ->
  let r := search_loop fuel f i j in
  (i <= r)%nat /\ (r <= j)%nat /\
  (forall k, (k < r)%nat -> f k = false) /\
  (forall k, (r <= k)%nat -> (k < n)%nat -> f k = true).
Proof.
  intros Hmono. revert i j.
  induction fuel as [| fuel IH]; intros i j Hij Hjn Hfuel Hlow Hhigh.
  - cbn [search_loop]. assert (i = j) by lia. subst j. auto.
  - cbn [search_loop]. destruct (Nat.ltb_spec i j) as [Hlt | Hge].
    2:{ assert (i = j) by lia. subst j. auto. }
    destruct (midpoint_between i j Hlt) as [Hlo Hhi].
    destruct (f ((i + j) / 2)%nat) eqn:Ef; cbn [negb].
    + destruct (IH i ((i + j) / 2)%nat) as (H1 & H2 & H3 & H4); try lia; auto.
      * intros k Hk Hkn. apply (Hmono ((i + j) / 2)%nat k); auto.
      * repeat split; auto. lia.
    + destruct (IH ((i + j) / 2 + 1)%nat j) as (H1 & H2 & H3 & H4); try lia; auto.
      * intros k Hk. destruct (f k) eqn:Ek; [| reflexivity].
        rewrite <- Ef. symmetry. apply (Hmono k ((i + j) / 2)%nat); auto; lia.
      * repeat split; auto. lia.
Qed.

(** [sort.Search(n, f)] is the smallest index in [0, n) at which [f] is
    true, and [n] when there is none. *)
Lemma Search_spec (n : nat) (f : nat -> bool) :
  monotone_below n f ->
  (Search n f <= n)%nat /\
  (forall k, (k < Search n f)%nat -> f k = false) /\
  (forall k, (Search n f <= k)%nat -> (k < n)%nat -> f k = true).
Proof.
  intros Hmono.
  destruct (search_loop_fuel n n f 0 n Hmono) as (_ & H2 & H3 & H4);
    try lia; auto.
Qed.

Lemma fits_Some `{SL : ShelfLayer} (db : database) (p : bytes) (i : nat) (s : shelf) :
  shelves db !! i = Some s ->
  fits db p i = (wrap_int (Z.of_nat (length p) + itemHeaderSize) <=? slotSize s).
Proof. intros H. unfold fits. rewrite H. reflexivity. Qed.

Lemma fits_monotone `{SL : ShelfLayer} (db : database) (p : bytes) :
  ascending (shelves db) -> monotone_below (length (shelves db)) (fits db p).
Proof.
  intros Hasc a b Hab Hb Ha.
  destruct (lookup_lt_is_Some_2 (shelves db) b Hb) as [sb Hsb].
  destruct (lookup_lt_is_Some_2 (shelves db) a) as [sa Hsa]; [lia |].
  rewrite (fits_Some db p a sa Hsa) in Ha. rewrite (fits_Some db p b sb Hsb).
  destruct (Nat.eq_dec a b) as [-> | Hne].
  - rewrite Hsa in Hsb. injection Hsb as <-. exact Ha.
  - assert (slotSize sa < slotSize sb) by (apply (Hasc a b); auto; lia).
    apply Z.leb_le. apply Z.leb_le in Ha. lia.
Qed.

(** C4. On shelves in strictly ascending slot size, [Put] hands the
    payload to the shelf of the smallest index whose slot size is at least
    [len(p) + itemHeaderSize], and makes the key from the slot that shelf
    returns; when no shelf is that large it returns the "no shelf found"
    error and the world is as it was: no shelf has been called.  The header
    size is not negative and [len(p) + itemHeaderSize] is within Go's
    [int], as it is for every slice. *)
Theorem Put_best_fit `{SL : ShelfLayer} (db : database) (p : bytes) (w : world) :
  ascending (shelves db) ->
  0 <= itemHeaderSize ->
  Z.of_nat (length p) + itemHeaderSize <= max_int ->
  let need := Z.of_nat (length p) + itemHeaderSize in
  (forall (i : nat) (s : shelf),
     shelves db !! i = Some s ->
     need <= slotSize s ->
     (forall (j : nat) (t : shelf),
        (j < i)%nat -> shelves db !! j = Some t -> slotSize t < need) ->
     Put db p w
     = (fst (shelf_Put s p w),
        Returned match snd (shelf_Put s p w) with
                 | (_, Some e) => (0, Some e)
                 | (slot, None) => (make_key slot i, None)
                 end)) /\
  ((forall (i : nat) (s : shelf), shelves db !! i = Some s -> slotSize s < need) ->
   Put db p w = (w, Returned (0, Some (ErrNoShelfFound (length p))))).
Proof.
  intros Hasc Hhdr Hmax need.
  assert (Hwrap : wrap_int (Z.of_nat (length p) + itemHeaderSize) = need).
  { apply wrap_int_small. unfold max_int in *. lia. }
  destruct (Search_spec (length (shelves db)) (fits db p) (fits_monotone db p Hasc))
    as (Hle & Hbelow & Habove).
  split.
  - intros i s Hi Hfit Hmin.
    assert (Hin : (i < length (shelves db))%nat) by (apply lookup_lt_is_Some_1; eauto).
    assert (Hfi : fits db p i = true).
    { rewrite (fits_Some db p i s Hi), Hwrap. apply Z.leb_le. exact Hfit. }
    assert (Hidx : Search (length (shelves db)) (fits db p) = i).
    { destruct (Nat.lt_trichotomy (Search (length (shelves db)) (fits db p)) i)
        as [Hlt | [Heq | Hgt]]; [| exact Heq |].
      - exfalso.
        destruct (lookup_lt_is_Some_2 (shelves db)
                    (Search (length (shelves db)) (fits db p))) as [t Ht]; [lia |].
        pose proof (Habove _ (Nat.le_refl _) ltac:(lia)) as Hft.
        rewrite (fits_Some db p _ t Ht), Hwrap in Hft. apply Z.leb_le in Hft.
        specialize (Hmin _ t Hlt Ht). lia.
      - rewrite (Hbelow i Hgt) in Hfi. discriminate. }
    unfold Put. rewrite Hidx.
    destruct (Nat.eqb_spec i (length (shelves db))); [lia |].
    rewrite Hi. destruct (shelf_Put s p w) as [w1 [slot [e |]]]; reflexivity.
  - intros Hnone.
    assert (Hidx : Search (length (shelves db)) (fits db p) = length (shelves db)).
    { destruct (Nat.eq_dec (Search (length (shelves db)) (fits db p))
                  (length (shelves db))) as [E | NE]; [exact E | exfalso].
      destruct (lookup_lt_is_Some_2 (shelves db)
                  (Search (length (shelves db)) (fits db p))) as [t Ht]; [lia |].
      pose proof (Habove _ (Nat.le_refl _) ltac:(lia)) as Hft.
      rewrite (fits_Some db p _ t Ht), Hwrap in Hft. apply Z.leb_le in Hft.
      specialize (Hnone _ t Ht). lia. }
    unfold Put. rewrite Hidx, Nat.eqb_refl. reflexivity.
Qed.

Lemma ascending_10_20_30 : ascending (SL := recorder) [10; 20; 30].
Proof.
  intros i j s t Hi Hj Hij.
  destruct i as [| [| [| i]]]; destruct j as [| [| [| j]]];
    simpl in Hi, Hj; try discriminate; try lia;
    injection Hi as <-; injection Hj as <-; simpl; lia.
Qed.

Lemma Put_best_fit_witness :
  Put (mkDatabase [10; 20; 30]) (repeat x00 7) fresh
  = (mkRecWorld [EvPut 20 (repeat x00 7)] [], Returned (make_key 0 1, None)) /\
  Put (mkDatabase [10; 20; 30]) (repeat x00 27) fresh
  = (fresh, Returned (0, Some (ErrNoShelfFound 27))).
Proof.
  split.
  - destruct (Put_best_fit (mkDatabase (SL := recorder) [10; 20; 30])
                (repeat x00 7) fresh) as [H _].
    + exact ascending_10_20_30.
    + vm_compute. discriminate.
    + vm_compute. discriminate.
    + rewrite (H 1%nat 20 eq_refl).
      * reflexivity.
      * vm_compute. discriminate.
      * intros j t Hj Ht. destruct j as [| j]; [| lia].
        injection Ht as <-. vm_compute. reflexivity.
  - destruct (Put_best_fit (mkDatabase (SL := recorder) [10; 20; 30])
                (repeat x00 27) fresh) as [_ H].
    + exact ascending_10_20_30.
    + vm_compute. discriminate.
    + vm_compute. discriminate.
    + apply H. intros i s Hi.
      destruct i as [| [| [| i]]]; simpl in Hi; try discriminate;
        injection Hi as <-; vm_compute; reflexivity.
Defined.

(** * Further properties of the router *)

(** ** Generators, call by call *)

(** X1. Call number [i] (from 1) of [SlotSizeLinear(size, count)] returns
    [size * i] when that is a [uint32], and it says done exactly when
    [i + 1 >= count]. *)
Theorem SlotSizeLinear_call (size count : Z) (i : nat) :
  (1 <= i)%nat -> Z.of_nat i + 1 <= max_int ->
  0 <= size * Z.of_nat i < 2 ^ 32 ->
  nth_call (i - 1) (SlotSizeLinear size count)
  = (size * Z.of_nat i, Z.of_nat i + 1 >=? count).
Proof.
  intros Hi Hmax Hfit.
  rewrite linear_nth_call by lia.
  replace (Z.of_nat (i - 1) + 1) with (Z.of_nat i) by lia.
  replace (Z.of_nat (i - 1) + 2) with (Z.of_nat i + 1) by lia.
  rewrite wrap_int_small by (unfold max_int; lia).
  rewrite wrap32_small by lia.
  reflexivity.
Qed.

Lemma SlotSizeLinear_call_witness :
  nth_call 2 (SlotSizeLinear 10 7) = (30, false) /\
  nth_call 5 (SlotSizeLinear 10 7) = (60, true).
Proof.
  split.
  - apply (SlotSizeLinear_call 10 7 3); [lia | vm_compute; discriminate | lia].
  - apply (SlotSizeLinear_call 10 7 6); [lia | vm_compute; discriminate | lia].
Defined.

Lemma doubled_pow (n : nat) (v : Z) :
  0 <= v -> v * 2 ^ Z.of_nat n < 2 ^ 32 -> doubled n v = v * 2 ^ Z.of_nat n.
Proof.
  revert v. induction n as [| n IH]; intros v Hv Hfit.
  - simpl. lia.
  - rewrite Nat2Z.inj_succ, Z.pow_succ_r in Hfit |- * by lia.
    assert (0 < 2 ^ Z.of_nat n) by (apply Z.pow_pos_nonneg; lia).
    cbn [doubled]. rewrite wrap32_small by nia.
    rewrite IH by nia. lia.
Qed.

(** X2. While [min * 2^k] is a [uint32], call number [k] (from 0) of
    [SlotSizePowerOfTwo(min, max)] returns [min * 2^k], and it says done
    exactly when that value is at least [max]. *)
Theorem SlotSizePowerOfTwo_call (min max : Z) (k : nat) :
  0 <= min < max -> min * 2 ^ Z.of_nat k < 2 ^ 32 ->
  exists fn, SlotSizePowerOfTwo min max = Returned fn /\
    nth_call k fn = (min * 2 ^ Z.of_nat k, min * 2 ^ Z.of_nat k >=? max).
Proof.
  intros Hmin Hfit. unfold SlotSizePowerOfTwo.
  destruct (Z.geb_spec min max); [lia |].
  eexists. split; [reflexivity |].
  rewrite powerOfTwo_nth_call, doubled_pow by lia. reflexivity.
Qed.

Lemma SlotSizePowerOfTwo_call_witness :
  exists fn, SlotSizePowerOfTwo 3 1000 = Returned fn /\
    nth_call 9 fn = (3 * 2 ^ 9, 3 * 2 ^ 9 >=? 1000).
Proof. apply (SlotSizePowerOfTwo_call 3 1000 9); lia. Defined.

(** The first index at which a test holds, below one where it does. *)
Lemma first_true_or_none (P : nat -> bool) (b : nat) :
  (exists n, (n < b)%nat /\ P n = true /\ forall k, (k < n)%nat -> P k = false) \/
  (forall k, (k < b)%nat -> P k = false).
Proof.
  induction b as [| b [(n & Hn & HP & Hmin) | Hnone]].
  - right. intros k Hk. lia.
  - left. exists n. split; [lia | auto].
  - destruct (P b) eqn:E.
    + left. exists b. split; [lia | auto].
    + right. intros k Hk. destruct (Nat.eq_dec k b) as [-> | Hne]; [exact E |].
      apply Hnone. lia.
Qed.

Lemma first_true (P : nat -> bool) (b : nat) :
  P b = true ->
  exists n, (n <= b)%nat /\ P n = true /\ forall k, (k < n)%nat -> P k = false.
Proof.
  intros Hb. destruct (first_true_or_none P (S b)) as [(n & Hn & HP & Hmin) | Hnone].
  - exists n. split; [lia | auto].
  - rewrite Hnone in Hb by lia. discriminate.
Qed.

(** X3. [SlotSizePowerOfTwo(min, max)] with [0 < min < max <= 2^31] says
    done within 32 calls; up to and including that call the sizes are
    [min], [2 min], [4 min], ... with no wrap-around, hence increasing. *)
Theorem SlotSizePowerOfTwo_finishes (min max : Z) :
  0 < min < max -> max <= 2 ^ 31 ->
  exists fn n, SlotSizePowerOfTwo min max = Returned fn /\
    (n <= 31)%nat /\
    (forall k, (k < n)%nat -> snd (nth_call k fn) = false) /\
    snd (nth_call n fn) = true /\
    (forall k, (k <= n)%nat -> fst (nth_call k fn) = min * 2 ^ Z.of_nat k) /\
    (forall k, (k < n)%nat -> fst (nth_call k fn) < fst (nth_call (S k) fn)).
Proof.
  intros Hmin Hmax. unfold SlotSizePowerOfTwo.
  destruct (Z.geb_spec min max); [lia |].
  destruct (first_true (fun k => min * 2 ^ Z.of_nat k >=? max) 31)
    as (n & Hn & Hdone & Hnot).
  { apply Z.geb_le. change (2 ^ Z.of_nat 31) with (2 ^ 31). lia. }
  apply Z.geb_le in Hdone.
  assert (Hbelow : forall k, (k < n)%nat -> min * 2 ^ Z.of_nat k < max).
  { intros k Hk. specialize (Hnot k Hk). cbv beta in Hnot.
    destruct (Z.geb_spec (min * 2 ^ Z.of_nat k) max); [discriminate | lia]. }
  assert (Hfit : forall k, (k <= n)%nat -> min * 2 ^ Z.of_nat k < 2 ^ 32).
  { intros k Hk. destruct k as [| k]; [simpl; lia |].
    specialize (Hbelow k ltac:(lia)).
    rewrite Nat2Z.inj_succ, Z.pow_succ_r by lia. lia. }
  assert (Hval : forall k, (k <= n)%nat ->
            nth_call k (mkSlotSizeFn Z min (powerOfTwo_body max))
            = (min * 2 ^ Z.of_nat k, min * 2 ^ Z.of_nat k >=? max)).
  { intros k Hk. rewrite powerOfTwo_nth_call, doubled_pow by (auto; lia). reflexivity. }
  eexists _, n. split; [reflexivity |].
  split; [exact Hn |].
  split; [| split; [| split]].
  - intros k Hk. rewrite Hval by lia. cbn [snd]. apply Hnot. exact Hk.
  - rewrite Hval by lia. cbn [snd]. apply Z.geb_le. exact Hdone.
  - intros k Hk. rewrite Hval by lia. reflexivity.
  - intros k Hk. rewrite !Hval by lia. cbn [fst].
    rewrite Nat2Z.inj_succ, Z.pow_succ_r by lia.
    assert (0 < 2 ^ Z.of_nat k) by (apply Z.pow_pos_nonneg; lia). nia.
Qed.

Lemma SlotSizePowerOfTwo_finishes_witness :
  exists fn n, SlotSizePowerOfTwo 10 100 = Returned fn /\
    (n <= 31)%nat /\ snd (nth_call n fn) = true /\ fst (nth_call 0 fn) = 10.
Proof.
  destruct (SlotSizePowerOfTwo_finishes 10 100) as (fn & n & Hfn & Hn & _ & Hd & Hv & _);
    [lia | lia |].
  exists fn, n. split; [exact Hfn |]. split; [exact Hn |]. split; [exact Hd |].
  rewrite (Hv 0%nat) by lia. reflexivity.
Defined.

(** ** Open, from the generator's calls *)

Lemma nth_call_0 (fn : SlotSizeFn) : nth_call 0 fn = fst (invoke fn).
Proof. reflexivity. Qed.

Lemma calls_S (n : nat) (fn : SlotSizeFn) :
  calls (S n) fn = fst (invoke fn) :: calls n (snd (invoke fn)).
Proof. simpl. destruct (invoke fn). reflexivity. Qed.

Lemma calls_snoc (n : nat) (fn : SlotSizeFn) :
  calls (S n) fn = calls n fn ++ [nth_call n fn].
Proof.
  revert fn. induction n as [| n IH]; intros fn.
  - rewrite calls_S. reflexivity.
  - rewrite calls_S, IH, (calls_S n fn), nth_call_S. reflexivity.
Qed.

Lemma good_prefix_step (m : nat) (prev : Z) (fn : SlotSizeFn) :
  good_prefix (S m) prev fn ->
  snd (fst (invoke fn)) = false /\ prev < fst (fst (invoke fn)) /\
  good_prefix m (fst (fst (invoke fn))) (snd (invoke fn)).
Proof.
  intros [Hflag Hinc].
  split; [exact (Hflag 0%nat ltac:(lia)) |].
  split; [exact (Hinc 0%nat ltac:(lia)) |].
  split.
  - intros k Hk. rewrite <- nth_call_S. apply Hflag. lia.
  - intros k Hk. rewrite <- nth_call_S.
    specialize (Hinc (S k) ltac:(lia)). cbn iota in Hinc.
    destruct k as [| k]; [exact Hinc |].
    rewrite <- nth_call_S. exact Hinc.
Qed.

Lemma open_all_app `{SL : ShelfLayer} (opts : Options) (onData : OnDataFn)
    (l1 l2 : list Z) (db : list shelf) (w : world) :
  open_all opts onData (l1 ++ l2) db w
  = match open_all opts onData l1 db w with
    | (w1, Some db1) => open_all opts onData l2 db1 w1
    | (w1, None) => (w1, None)
    end.
Proof.
  revert db w. induction l1 as [| size l1 IH]; intros db w; [reflexivity |].
  simpl. destruct (openShelf _ _ _ _ w) as [w1 [s | e]]; [apply IH | reflexivity].
Qed.

(** What [open_all] returns is [db] with one shelf more per size. *)
Lemma open_all_extends `{SL : ShelfLayer} (opts : Options) (onData : OnDataFn)
    (sizes : list Z) (db db' : list shelf) (w w' : world) :
  open_all opts onData sizes db w = (w', Some db') ->
  exists new, db' = db ++ new /\ length new = length sizes /\
    (honours_size -> map slotSize new = sizes).
Proof.
  revert db w. induction sizes as [| size sizes IH]; intros db w H.
  - injection H as <- <-. exists []. rewrite app_nil_r. auto.
  - simpl in H. destruct (openShelf _ _ _ _ w) as [w1 [s | e]] eqn:E; [| discriminate].
    destruct (IH _ _ H) as (new & -> & Hlen & Hsz).
    exists (s :: new). rewrite <- app_assoc. split; [reflexivity |].
    split; [simpl; lia |].
    intros Hh. simpl. rewrite (Hh _ _ _ _ _ _ _ E), (Hsz Hh). reflexivity.
Qed.

(** The loop of [Open] through [m] acceptable calls whose shelves open: it
    arrives, [m] turns later, with these shelves added. *)
Lemma Open_loop_prefix `{SL : ShelfLayer} (opts : Options) (onData : OnDataFn)
    (m fuel : nat) (fn : SlotSizeFn) (db dbm : list shelf) (prev : Z) (w wm : world) :
  (length db + m <= 4095)%nat ->
  good_prefix m prev fn ->
  open_all opts onData (map fst (calls m fn)) db w = (wm, Some dbm) ->
  Open_loop (m + fuel) opts fn onData db prev (Z.of_nat (length db)) w
  = Open_loop fuel opts (after m fn) onData dbm
      (match m with O => prev | S m' => fst (nth_call m' fn) end)
      (Z.of_nat (length dbm)) wm.
Proof.
  revert fn db prev w. induction m as [| m IH]; intros fn db prev w Hlen Hgood Hopen.
  - simpl in Hopen. injection Hopen as <- <-. reflexivity.
  - destruct (good_prefix_step m prev fn Hgood) as (Hd & Hp & Hgood').
    rewrite calls_S in Hopen. cbn [map open_all] in Hopen.
    change (S m + fuel)%nat with (S (m + fuel)). cbn [Open_loop after].
    assert (Hlast : match m with
                    | O => fst (fst (invoke fn))
                    | S m' => fst (nth_call m' (snd (invoke fn)))
                    end = fst (nth_call m fn)).
    { destruct m; [reflexivity |]. rewrite nth_call_S. reflexivity. }
    destruct (invoke fn) as [[slotSize done] fn']. cbn [fst snd] in *. subst done.
    destruct (Z.leb_spec slotSize prev); [lia |].
    destruct (openShelf _ _ _ _ w) as [w1 [shelfet | err]]; [| discriminate].
    rewrite shelf_count_masked, length_app. cbn [length].
    rewrite Z.mod_small by lia.
    destruct (Z.ltb_spec (Z.of_nat (length db + 1)) (Z.of_nat (length db))); [lia |].
    rewrite <- Hlast.
    replace (Z.of_nat (length db + 1)) with (Z.of_nat (length (db ++ [shelfet])))
      by (rewrite length_app; reflexivity).
    apply IH.
    + rewrite length_app. cbn [length]. lia.
    + exact Hgood'.
    + exact Hopen.
Qed.

(** One more turn of the loop, by what the call and [openShelf] give. *)
Lemma Open_loop_order_error `{SL : ShelfLayer} (fuel : nat) (opts : Options)
    (fn : SlotSizeFn) (onData : OnDataFn) (db : list shelf) (prev prevId : Z) (w : world) :
  fst (nth_call 0 fn) <= prev ->
  Open_loop (S fuel) opts fn onData db prev prevId w = Some (w, inr ErrSlotOrder).
Proof.
  intros H. cbn [Open_loop]. rewrite nth_call_0 in H.
  destruct (invoke fn) as [[slotSize done] fn']. cbn [fst] in H.
  destruct (Z.leb_spec slotSize prev); [reflexivity | lia].
Qed.

Lemma Open_loop_open_error `{SL : ShelfLayer} (fuel : nat) (opts : Options)
    (fn : SlotSizeFn) (onData : OnDataFn) (db : list shelf) (prev prevId : Z)
    (w wf : world) (err : error) :
  prev < fst (nth_call 0 fn) ->
  openShelf (Path opts) (fst (nth_call 0 fn)) (wrapShelfDataFn (length db) onData)
    (Readonly opts) w = (wf, inr err) ->
  Open_loop (S fuel) opts fn onData db prev prevId w
  = Some (fst (close_each db wf), inr err).
Proof.
  intros Hp Hopen. cbn [Open_loop]. rewrite nth_call_0 in Hp, Hopen.
  destruct (invoke fn) as [[slotSize done] fn']. cbn [fst] in Hp, Hopen.
  destruct (Z.leb_spec slotSize prev); [lia |].
  rewrite Hopen. unfold Close. cbn [shelves].
  rewrite close_loop_close_each. reflexivity.
Qed.

Lemma Open_loop_last_shelf `{SL : ShelfLayer} (fuel : nat) (opts : Options)
    (fn : SlotSizeFn) (onData : OnDataFn) (db : list shelf) (prev : Z)
    (w w1 : world) (s : shelf) :
  (length db < 4095)%nat ->
  prev < fst (nth_call 0 fn) -> snd (nth_call 0 fn) = true ->
  openShelf (Path opts) (fst (nth_call 0 fn)) (wrapShelfDataFn (length db) onData)
    (Readonly opts) w = (w1, inl s) ->
  Open_loop (S fuel) opts fn onData db prev (Z.of_nat (length db)) w
  = Some (w1, inl (mkDatabase (db ++ [s]))).
Proof.
  intros Hlen Hp Hd Hopen. cbn [Open_loop]. rewrite nth_call_0 in Hp, Hd, Hopen.
  destruct (invoke fn) as [[slotSize done] fn']. cbn [fst snd] in Hp, Hd, Hopen.
  subst done.
  destruct (Z.leb_spec slotSize prev); [lia |].
  rewrite Hopen, shelf_count_masked, length_app. cbn [length].
  rewrite Z.mod_small by lia.
  destruct (Z.ltb_spec (Z.of_nat (length db + 1)) (Z.of_nat (length db))); [lia |].
  reflexivity.
Qed.

Lemma nth_call_after (m k : nat) (fn : SlotSizeFn) :
  nth_call k (after m fn) = nth_call (m + k) fn.
Proof.
  revert fn. induction m as [| m IH]; intros fn; [reflexivity |].
  cbn [after]. rewrite IH. reflexivity.
Qed.

Lemma open_all_last `{SL : ShelfLayer} (opts : Options) (onData : OnDataFn)
    (m : nat) (fn : SlotSizeFn) (w w' : world) (db : list shelf) :
  open_all opts onData (map fst (calls (S m) fn)) [] w = (w', Some db) ->
  exists wm dbm s,
    open_all opts onData (map fst (calls m fn)) [] w = (wm, Some dbm) /\
    length dbm = m /\
    openShelf (Path opts) (fst (nth_call m fn)) (wrapShelfDataFn (length dbm) onData)
      (Readonly opts) wm = (w', inl s) /\
    db = dbm ++ [s].
Proof.
  rewrite calls_snoc, map_app, open_all_app. cbn [map].
  destruct (open_all opts onData (map fst (calls m fn)) [] w) as [wm [dbm |]] eqn:E;
    [| discriminate].
  cbn [open_all]. intros H.
  destruct (openShelf _ _ _ _ wm) as [w1 [s | e]] eqn:Eo; [| discriminate].
  injection H as <- <-.
  destruct (open_all_extends _ _ _ _ _ _ _ E) as (new & -> & Hlen & _).
  rewrite length_map in Hlen.
  assert (Hc : length (calls m fn) = m).
  { clear. revert fn. induction m as [| m IH]; intros fn; [reflexivity |].
    rewrite calls_S. simpl. rewrite IH. reflexivity. }
  exists wm, ([] ++ new), s. rewrite Hc in Hlen. simpl. auto.
Qed.

Lemma Open_from_prefix `{SL : ShelfLayer} (opts : Options) (fn : SlotSizeFn)
    (onData : OnDataFn) (m : nat) (w wm : world) (dbm : list shelf) :
  (m <= 4095)%nat ->
  good_prefix m 0 fn ->
  open_all opts onData (map fst (calls m fn)) [] w = (wm, Some dbm) ->
  length dbm = m /\
  Open opts fn onData w
  = Open_loop (S (4095 - m)) opts (after m fn) onData dbm
      (match m with O => 0 | S m' => fst (nth_call m' fn) end)
      (Z.of_nat (length dbm)) wm.
Proof.
  intros Hm Hgood Hopen.
  split.
  - destruct (open_all_extends _ _ _ _ _ _ _ Hopen) as (new & -> & Hlen & _).
    rewrite length_map in Hlen. simpl. rewrite Hlen.
    clear. revert fn. induction m as [| m IH]; intros fn; [reflexivity |].
    rewrite calls_S. simpl. rewrite IH. reflexivity.
  - unfold Open.
    replace 4096%nat with (m + S (4095 - m))%nat by lia.
    apply (Open_loop_prefix opts onData m (S (4095 - m)) fn [] dbm 0 w wm);
      [simpl; lia | exact Hgood | exact Hopen].
Qed.

(** X4. [Open] succeeds on a well-formed generator whose shelves open:
    when the first [m] calls are not done, call [m] is, the [m + 1] sizes
    increase from above 0 and [openShelf] succeeds for each in turn, [Open]
    returns exactly these [m + 1] shelves, in order, and the world the last
    [openShelf] left. *)
Theorem Open_succeeds `{SL : ShelfLayer} (opts : Options) (fn : SlotSizeFn)
    (onData : OnDataFn) (m : nat) (w w' : world) (db : list shelf) :
  (m < 4095)%nat ->
  good_prefix m 0 fn ->
  snd (nth_call m fn) = true ->
  (match m with O => 0 | S m' => fst (nth_call m' fn) end) < fst (nth_call m fn) ->
  open_all opts onData (map fst (calls (S m) fn)) [] w = (w', Some db) ->
  Open opts fn onData w = Some (w', inl (mkDatabase db)).
Proof.
  intros Hm Hgood Hdone Hinc Hopen.
  destruct (open_all_last opts onData m fn w w' db Hopen)
    as (wm & dbm & s & Hpre & Hlen & Hlast & ->).
  destruct (Open_from_prefix opts fn onData m w wm dbm ltac:(lia) Hgood Hpre) as [_ ->].
  apply Open_loop_last_shelf; rewrite ?nth_call_after, ?Nat.add_0_r; auto. lia.
Qed.

(** X5. When [openShelf] fails for the size of call [m], after [m]
    acceptable calls whose shelves opened, [Open] asks each of these [m]
    shelves to close, in the order they were opened, and returns the error
    of [openShelf] unchanged. *)
Theorem Open_closes_shelves_when_openShelf_fails `{SL : ShelfLayer} (opts : Options)
    (fn : SlotSizeFn) (onData : OnDataFn) (m : nat) (w wm wf : world)
    (dbm : list shelf) (err : error) :
  (m <= 4095)%nat ->
  good_prefix m 0 fn ->
  (match m with O => 0 | S m' => fst (nth_call m' fn) end) < fst (nth_call m fn) ->
  open_all opts onData (map fst (calls m fn)) [] w = (wm, Some dbm) ->
  openShelf (Path opts) (fst (nth_call m fn)) (wrapShelfDataFn (length dbm) onData)
    (Readonly opts) wm = (wf, inr err) ->
  Open opts fn onData w = Some (fst (close_each dbm wf), inr err).
Proof.
  intros Hm Hgood Hinc Hpre Hfail.
  destruct (Open_from_prefix opts fn onData m w wm dbm Hm Hgood Hpre) as [_ ->].
  apply Open_loop_open_error; rewrite ?nth_call_after, ?Nat.add_0_r; auto.
Qed.

(** X6. When the size of call [m] is not above the size before it (or is
    0, for the first call), after [m] acceptable calls whose shelves opened,
    [Open] returns the ordering error and the world is the one these [m]
    calls to [openShelf] left: no further shelf is opened and none is asked
    to close. *)
Theorem Open_order_error_after_prefix `{SL : ShelfLayer} (opts : Options)
    (fn : SlotSizeFn) (onData : OnDataFn) (m : nat) (w wm : world) (dbm : list shelf) :
  (m <= 4095)%nat ->
  good_prefix m 0 fn ->
  fst (nth_call m fn) <= (match m with O => 0 | S m' => fst (nth_call m' fn) end) ->
  open_all opts onData (map fst (calls m fn)) [] w = (wm, Some dbm) ->
  Open opts fn onData w = Some (wm, inr ErrSlotOrder).
Proof.
  intros Hm Hgood Hbad Hpre.
  destruct (Open_from_prefix opts fn onData m w wm dbm Hm Hgood Hpre) as [_ ->].
  apply Open_loop_order_error. rewrite nth_call_after, Nat.add_0_r. exact Hbad.
Qed.

Lemma good_prefix_replay2 (a b : Z) (rest : list (Z * bool)) :
  0 < a < b ->
  good_prefix 2 0 (replay ((a, false) :: (b, false) :: rest)).
Proof.
  intros H. split; intros k Hk; destruct k as [| [| k]]; try lia;
    simpl; try reflexivity; lia.
Qed.

Lemma Open_succeeds_witness :
  Open opts0 (replay [(10, false); (20, false); (30, true)]) None fresh
  = Some (mkRecWorld [EvOpen 10 false; EvOpen 20 false; EvOpen 30 false] [],
          inl (mkDatabase [10; 20; 30])).
Proof.
  apply (Open_succeeds (SL := recorder) opts0
           (replay [(10, false); (20, false); (30, true)]) None 2 fresh).
  - lia.
  - apply (good_prefix_replay2 10 20). lia.
  - reflexivity.
  - simpl. lia.
  - reflexivity.
Defined.

Lemma Open_closes_shelves_when_openShelf_fails_witness :
  Open opts0 (replay [(10, false); (20, false); (30, true)]) None
    (mkRecWorld [] [(30, "disk full"%string)])
  = Some (mkRecWorld [EvOpen 10 false; EvOpen 20 false; EvClose 10; EvClose 20]
            [(30, "disk full"%string)],
          inr (ErrShelf "disk full")).
Proof.
  apply (Open_closes_shelves_when_openShelf_fails (SL := recorder) opts0
           (replay [(10, false); (20, false); (30, true)]) None 2
           (mkRecWorld [] [(30, "disk full"%string)])
           (mkRecWorld [EvOpen 10 false; EvOpen 20 false] [(30, "disk full"%string)])
           (mkRecWorld [EvOpen 10 false; EvOpen 20 false] [(30, "disk full"%string)])
           [10; 20]).
  - lia.
  - apply (good_prefix_replay2 10 20). lia.
  - simpl. lia.
  - reflexivity.
  - reflexivity.
Defined.

Lemma Open_order_error_after_prefix_witness :
  Open opts0 (replay [(10, false); (20, false); (20, true)]) None fresh
  = Some (mkRecWorld [EvOpen 10 false; EvOpen 20 false] [], inr ErrSlotOrder).
Proof.
  apply (Open_order_error_after_prefix (SL := recorder) opts0
           (replay [(10, false); (20, false); (20, true)]) None 2 fresh
           (mkRecWorld [EvOpen 10 false; EvOpen 20 false] []) [10; 20]).
  - lia.
  - apply (good_prefix_replay2 10 20). lia.
  - simpl. lia.
  - reflexivity.
Defined.

(** ** Open, from what it returns *)

Lemma good_prefix_cons (m : nat) (prev : Z) (fn : SlotSizeFn) :
  snd (fst (invoke fn)) = false -> prev < fst (fst (invoke fn)) ->
  good_prefix m (fst (fst (invoke fn))) (snd (invoke fn)) ->
  good_prefix (S m) prev fn.
Proof.
  intros Hd Hp [Hflag Hinc]. split.
  - intros k Hk. destruct k as [| k]; [exact Hd |].
    rewrite nth_call_S. apply Hflag. lia.
  - intros k Hk. destruct k as [| k]; [exact Hp |].
    rewrite nth_call_S. specialize (Hinc k ltac:(lia)).
    destruct k as [| k]; [exact Hinc |].
    rewrite nth_call_S. exact Hinc.
Qed.

Lemma Open_unfold `{SL : ShelfLayer} (opts : Options) (fn : SlotSizeFn)
    (onData : OnDataFn) (w : world) :
  Open_loop 4096 opts fn onData [] 0 0 w = Open opts fn onData w.
Proof. unfold Open. reflexivity. Qed.

(** A database returned by the loop: the calls that led to it. *)
Lemma Open_loop_result `{SL : ShelfLayer} (opts : Options) (onData : OnDataFn)
    (fuel : nat) (fn : SlotSizeFn) (db : list shelf) (prev prevId : Z)
    (w w' : world) (d : database) :
  Open_loop fuel opts fn onData db prev prevId w = Some (w', inl d) ->
  exists m,
    good_prefix m prev fn /\
    snd (nth_call m fn) = true /\
    (match m with O => prev | S m' => fst (nth_call m' fn) end) < fst (nth_call m fn) /\
    open_all opts onData (map fst (calls (S m) fn)) db w = (w', Some (shelves d)).
Proof.
  revert fn db prev prevId w.
  induction fuel as [| fuel IH]; intros fn db prev prevId w H; [discriminate |].
  cbn [Open_loop] in H.
  pose proof (nth_call_0 fn) as H0.
  pose proof (calls_S fuel fn) as _.
  assert (Hcalls : forall n, calls (S n) fn = fst (invoke fn) :: calls n (snd (invoke fn)))
    by (intros n; apply calls_S).
  assert (Hnext : forall k, nth_call (S k) fn = nth_call k (snd (invoke fn)))
    by (intros k; apply nth_call_S).
  assert (Hcons : forall m,
            snd (fst (invoke fn)) = false -> prev < fst (fst (invoke fn)) ->
            good_prefix m (fst (fst (invoke fn))) (snd (invoke fn)) ->
            good_prefix (S m) prev fn)
    by (intros m; apply good_prefix_cons).
  destruct (invoke fn) as [[slotSize done] fn']. cbn [fst snd] in *.
  destruct (Z.leb_spec slotSize prev); [discriminate |].
  destruct (openShelf _ _ _ _ w) as [w1 [shelfet | err]] eqn:Eo.
  2:{ destruct (Close _ w1); discriminate. }
  destruct (_ <? prevId); [discriminate |].
  destruct done.
  - injection H as <- <-. exists 0%nat.
    split; [split; intros k Hk; lia |].
    rewrite H0, (Hcalls 0%nat). cbn [fst snd map calls open_all shelves].
    rewrite Eo. auto.
  - destruct (IH _ _ _ _ _ H) as (m & Hgood & Hd & Hinc & Hopen).
    exists (S m).
    split; [apply Hcons; auto |].
    split; [rewrite Hnext; exact Hd |].
    split.
    + rewrite Hnext. destruct m as [| m]; [rewrite H0; exact Hinc |].
      rewrite Hnext. exact Hinc.
    + rewrite (Hcalls (S m)). cbn [fst map open_all]. rewrite Eo. exact Hopen.
Qed.

(** X7. A database returned by [Open] holds one shelf per call of the
    generator up to its first done, opened in that order: the calls before
    the last are not done, the sizes increase from above 0, and the shelves
    are those [openShelf] returned for these sizes.  On a shelf layer that
    gives each shelf the size asked for, the slot sizes of the shelves are
    the sizes the generator yielded. *)
Theorem Open_shelves_follow_generator `{SL : ShelfLayer} (opts : Options)
    (fn : SlotSizeFn) (onData : OnDataFn) (w w' : world) (db : database) :
  Open opts fn onData w = Some (w', inl db) ->
  exists m,
    length (shelves db) = S m /\
    good_prefix m 0 fn /\
    snd (nth_call m fn) = true /\
    (match m with O => 0 | S m' => fst (nth_call m' fn) end) < fst (nth_call m fn) /\
    open_all opts onData (map fst (calls (S m) fn)) [] w = (w', Some (shelves db)) /\
    (honours_size -> map slotSize (shelves db) = map fst (calls (S m) fn)).
Proof.
  intros H. rewrite <- Open_unfold in H.
  destruct (Open_loop_result _ _ _ _ _ _ _ _ _ _ H) as (m & Hgood & Hd & Hinc & Hopen).
  exists m.
  destruct (open_all_extends _ _ _ _ _ _ _ Hopen) as (new & Hnew & Hlen & Hsz).
  simpl in Hnew. subst new.
  assert (Hc : length (calls (S m) fn) = S m).
  { clear. generalize (S m). intros n. revert fn.
    induction n as [| n IH]; intros fn; [reflexivity |].
    rewrite calls_S. simpl. rewrite IH. reflexivity. }
  rewrite length_map, Hc in Hlen. auto 10.
Qed.

Lemma Open_shelves_follow_generator_witness :
  exists m, length [10; 20] = S m /\
    snd (nth_call m (SlotSizeLinear 10 3)) = true /\
    map (fun s : Z => s) [10; 20] = map fst (calls (S m) (SlotSizeLinear 10 3)).
Proof.
  assert (HO : Open (SL := recorder) opts0 (SlotSizeLinear 10 3) None fresh
               = Some (mkRecWorld [EvOpen 10 false; EvOpen 20 false] [],
                       inl (mkDatabase (SL := recorder) [10; 20]))) by reflexivity.
  destruct (Open_shelves_follow_generator _ _ _ _ _ _ HO)
    as (m & Hlen & _ & Hd & _ & _ & Hsz).
  exists m. split; [exact Hlen |]. split; [exact Hd |].
  apply Hsz. intros path size cb ro w w' s. simpl.
  destruct (fault_of size (faults w)); intros [= _ <-]. reflexivity.
Defined.

(** X8. [Open] returns for every generator, also one that never says
    done, and on every shelf layer: within 4096 turns of its loop it has
    either an error or a database of at least 1 and at most 4095 shelves. *)
Theorem Open_always_returns `{SL : ShelfLayer} (opts : Options) (fn : SlotSizeFn)
    (onData : OnDataFn) (w : world) :
  exists w' r,
    Open opts fn onData w = Some (w', r) /\
    match r with
    | inl db => (1 <= length (shelves db) <= 4095)%nat
    | inr _ => True
    end.
Proof.
  destruct (Open_bounded opts fn onData w) as (w' & r & H & Hr).
  exists w', r. split; [exact H |].
  destruct r as [db | e]; [apply Hr; reflexivity | exact I].
Qed.

Lemma increasing_chain (v : nat -> Z) (m : nat) (prev : Z) :
  (forall k, (k <= m)%nat -> (match k with O => prev | S k' => v k' end) < v k) ->
  forall i j, (i < j)%nat -> (j <= m)%nat -> prev < v i /\ v i < v j.
Proof.
  intros H i j Hij Hj.
  assert (Hprev : forall k, (k <= m)%nat -> prev < v k).
  { induction k as [| k IH]; intros Hk; [exact (H 0%nat Hk) |].
    specialize (H (S k) Hk). cbn iota in H. specialize (IH ltac:(lia)). lia. }
  split; [apply Hprev; lia |].
  induction j as [| j IH]; [lia |].
  specialize (H (S j) Hj). cbn iota in H.
  destruct (Nat.eq_dec i j) as [-> | Hne]; [exact H |].
  specialize (IH ltac:(lia) ltac:(lia)). lia.
Qed.

(** X9. On a shelf layer that gives each shelf the size asked for, the
    shelves of a database returned by [Open] have strictly ascending slot
    sizes, all above 0: what the binary search of [Put] relies on. *)
Theorem Open_shelves_ascending `{SL : ShelfLayer} (opts : Options) (fn : SlotSizeFn)
    (onData : OnDataFn) (w w' : world) (db : database) :
  honours_size ->
  Open opts fn onData w = Some (w', inl db) ->
  ascending (shelves db) /\
  forall i s, shelves db !! i = Some s -> 0 < slotSize s.
Proof.
  intros Hh H. rewrite <- Open_unfold in H.
  destruct (Open_loop_result _ _ _ _ _ _ _ _ _ _ H) as (m & [Hflag Hgood] & Hd & Hinc & Hopen).
  destruct (open_all_extends _ _ _ _ _ _ _ Hopen) as (new & Hnew & Hlen & Hsz).
  simpl in Hnew. subst new. specialize (Hsz Hh).
  assert (Hsize : forall i s, shelves db !! i = Some s ->
            (i <= m)%nat /\ slotSize s = fst (nth_call i fn)).
  { intros i s Hi.
    assert (Hm : map slotSize (shelves db) !! i = Some (slotSize s))
      by (rewrite list_lookup_fmap, Hi; reflexivity).
    rewrite Hsz in Hm.
    assert (Hlt : (i < S m)%nat).
    { apply lookup_lt_Some in Hm. rewrite length_map in Hm.
      rewrite length_map in Hlen.
      assert (Hc : length (calls (S m) fn) = S m).
      { clear. generalize (S m). intros n. revert fn.
        induction n as [| n IH]; intros fn; [reflexivity |].
        rewrite calls_S. simpl. rewrite IH. reflexivity. }
      lia. }
    rewrite list_lookup_fmap, (calls_nth_call (S m) i fn Hlt) in Hm.
    injection Hm as Hm. split; [lia | auto]. }
  assert (Hchain : forall k, (k <= m)%nat ->
            (match k with O => 0 | S k' => fst (nth_call k' fn) end) < fst (nth_call k fn)).
  { intros k Hk. destruct (Nat.eq_dec k m) as [-> | Hne]; [exact Hinc |].
    apply Hgood. lia. }
  split.
  - intros i j s t Hi Hj Hij.
    destruct (Hsize i s Hi) as [_ ->]. destruct (Hsize j t Hj) as [Hjm ->].
    apply (increasing_chain (fun k => fst (nth_call k fn)) m 0 Hchain i j Hij Hjm).
  - intros i s Hi. destruct (Hsize i s Hi) as [Him ->].
    destruct i as [| i]; [exact (Hchain 0%nat Him) |].
    destruct (increasing_chain (fun k => fst (nth_call k fn)) m 0 Hchain i (S i)
                ltac:(lia) Him) as [H1 H2].
    cbv beta in H1, H2. lia.
Qed.

Lemma recorder_honours_size : honours_size (SL := recorder).
Proof.
  intros path size cb ro w w' s. simpl.
  destruct (fault_of size (faults w)); intros [= _ <-]. reflexivity.
Qed.

Lemma Open_shelves_ascending_witness :
  ascending (SL := recorder) [10; 20; 40].
Proof.
  assert (HO : Open (SL := recorder) opts0
                 (replay [(10, false); (20, false); (40, true)]) None fresh
               = Some (mkRecWorld [EvOpen 10 false; EvOpen 20 false; EvOpen 40 false] [],
                       inl (mkDatabase (SL := recorder) [10; 20; 40]))) by reflexivity.
  exact (proj1 (Open_shelves_ascending _ _ _ _ _ _ recorder_honours_size HO)).
Defined.

Lemma doubled_zero (n : nat) : doubled n 0 = 0.
Proof. induction n as [| n IH]; [reflexivity | exact IH]. Qed.

(** X10. [SlotSizePowerOfTwo(0, max)] passes the check of the constructor
    but never finishes: every call yields size 0 and not done.  [Open]
    rejects it at the first call with the ordering error, before any shelf
    is opened. *)
Theorem SlotSizePowerOfTwo_zero `{SL : ShelfLayer} (max : Z) (opts : Options)
    (onData : OnDataFn) (w : world) :
  0 < max ->
  exists fn, SlotSizePowerOfTwo 0 max = Returned fn /\
    (forall k, nth_call k fn = (0, false)) /\
    Open opts fn onData w = Some (w, inr ErrSlotOrder).
Proof.
  intros Hmax. unfold SlotSizePowerOfTwo.
  destruct (Z.geb_spec 0 max); [lia |].
  eexists. split; [reflexivity |].
  assert (Hcall : forall k, nth_call k (mkSlotSizeFn Z 0 (powerOfTwo_body max)) = (0, false)).
  { intros k. rewrite powerOfTwo_nth_call, doubled_zero.
    destruct (Z.geb_spec 0 max); [lia | reflexivity]. }
  split; [exact Hcall |].
  rewrite <- Open_unfold. apply (Open_loop_order_error 4095).
  rewrite Hcall. simpl. lia.
Qed.

Lemma SlotSizePowerOfTwo_zero_witness :
  exists fn, SlotSizePowerOfTwo 0 64 = Returned fn /\
    nth_call 5 fn = (0, false) /\
    Open opts0 fn None fresh = Some (fresh, inr ErrSlotOrder).
Proof.
  destruct (SlotSizePowerOfTwo_zero (SL := recorder) 64 opts0 None fresh)
    as (fn & Hfn & Hcall & HO); [lia |].
  exists fn. split; [exact Hfn |]. split; [apply Hcall | exact HO].
Defined.

(** ** Keys *)

Lemma shelf_id_make_key (slot : Z) (index : nat) :
  0 <= slot < 2 ^ 28 -> (index < 4096)%nat ->
  shelf_id (make_key slot index) = Z.of_nat index.
Proof.
  intros Hs Hi. rewrite shelf_id_spec, make_key_sum by assumption.
  Z.div_mod_to_equations. lia.
Qed.

Lemma get_slot_make_key (slot : Z) (index : nat) :
  0 <= slot < 2 ^ 28 -> (index < 4096)%nat ->
  get_slot (make_key slot index) = slot.
Proof.
  intros Hs Hi. rewrite get_slot_spec, make_key_sum by assumption.
  Z.div_mod_to_equations. lia.
Qed.

(** X11. Keys made from a shelf index below 4096 and a slot below 2^28 are
    below 2^40, and two of them are equal only when both the slot and the
    index are: no two slots of a database share a key. *)
Theorem make_key_injective (slot slot' : Z) (index index' : nat) :
  0 <= slot < 2 ^ 28 -> 0 <= slot' < 2 ^ 28 ->
  (index < 4096)%nat -> (index' < 4096)%nat ->
  0 <= make_key slot index < 2 ^ 40 /\
  (make_key slot index = make_key slot' index' -> slot = slot' /\ index = index').
Proof.
  intros Hs Hs' Hi Hi'. rewrite !make_key_sum by assumption.
  split; [lia |]. intros H. lia.
Qed.

Lemma make_key_injective_witness :
  0 <= make_key 5 3 < 2 ^ 40 /\
  (make_key 5 3 = make_key 5 4 -> 5 = 5 /\ 3%nat = 4%nat).
Proof. apply (make_key_injective 5 5 3 4); lia. Defined.

(** ** Put *)

(** The binary search without any assumption on [f]: it stays within
    [0, n], and below [n] it stops on an index where [f] holds. *)
Lemma search_loop_sound (n fuel : nat) (f : nat -> bool) (i j : nat) :
  (i <= j)%nat -> (j <= n)%nat -> (j - i <= fuel)%nat ->
  ((j < n)%nat -> f j = true) ->
  (i <= search_loop fuel f i j)%nat /\ (search_loop fuel f i j <= j)%nat /\
  ((search_loop fuel f i j < n)%nat -> f (search_loop fuel f i j) = true).
Proof.
  revert i j. induction fuel as [| fuel IH]; intros i j Hij Hjn Hfuel Hj.
  - cbn [search_loop]. assert (i = j) by lia. subst j. auto.
  - cbn [search_loop]. destruct (Nat.ltb_spec i j) as [Hlt | Hge].
    2:{ assert (i = j) by lia. subst j. auto. }
    destruct (midpoint_between i j Hlt) as [Hlo Hhi].
    destruct (f ((i + j) / 2)%nat) eqn:Ef; cbn [negb].
    + destruct (IH i ((i + j) / 2)%nat) as (H1 & H2 & H3); try lia; auto.
      repeat split; auto; lia.
    + destruct (IH ((i + j) / 2 + 1)%nat j) as (H1 & H2 & H3); try lia; auto.
      repeat split; auto; lia.
Qed.

Lemma Search_sound (n : nat) (f : nat -> bool) :
  (Search n f <= n)%nat /\ ((Search n f < n)%nat -> f (Search n f) = true).
Proof.
  destruct (search_loop_sound n n f 0 n) as (_ & H2 & H3); try lia; auto.
Qed.

Lemma Put_cases `{SL : ShelfLayer} (db : database) (p : bytes) (w : world) :
  ((forall i, (i < length (shelves db))%nat -> fits db p i = true -> False) ->
   Put db p w = (w, Returned (0, Some (ErrNoShelfFound (length p))))) /\
  (Put db p w = (w, Returned (0, Some (ErrNoShelfFound (length p)))) \/
   exists i s, shelves db !! i = Some s /\ fits db p i = true /\
               Put db p w = handed_to s i p w).
Proof.
  destruct (Search_sound (length (shelves db)) (fits db p)) as [Hle Hfit].
  unfold Put.
  destruct (Nat.eqb_spec (Search (length (shelves db)) (fits db p))
              (length (shelves db))) as [E | NE].
  - split; [reflexivity | left; reflexivity].
  - assert (Hlt : (Search (length (shelves db)) (fits db p) < length (shelves db))%nat)
      by lia.
    specialize (Hfit Hlt).
    split; [intros Hnone; destruct (Hnone _ Hlt Hfit) |].
    right. destruct (lookup_lt_is_Some_2 (shelves db) _ Hlt) as [s Hs].
    exists (Search (length (shelves db)) (fits db p)), s.
    rewrite Hs. split; [reflexivity |]. split; [exact Hfit |].
    unfold handed_to. destruct (shelf_Put s p w) as [w1 [slot [e |]]]; reflexivity.
Qed.

(** X12. [Put] never panics, whatever the shelves and their order: the
    index it uses is one the search returned below [len(db.shelves)]. *)
Theorem Put_never_panics `{SL : ShelfLayer} (db : database) (p : bytes) (w : world) :
  exists w' key err, Put db p w = (w', Returned (key, err)).
Proof.
  destruct (Put_cases db p w) as [_ [H | (i & s & _ & _ & H)]]; rewrite H.
  - eauto.
  - unfold handed_to. destruct (snd (shelf_Put s p w)) as [slot [e |]]; eauto.
Qed.

(** X13. On any list of shelves, ascending or not: a shelf that [Put]
    hands a payload to has a slot size of at least [len(p) +
    itemHeaderSize]; and when no shelf is that large [Put] returns the "no
    shelf found" error with the world as it was. *)
Theorem Put_only_where_it_fits `{SL : ShelfLayer} (db : database) (p : bytes) (w : world) :
  0 <= itemHeaderSize ->
  Z.of_nat (length p) + itemHeaderSize <= max_int ->
  ((forall i s, shelves db !! i = Some s ->
                slotSize s < Z.of_nat (length p) + itemHeaderSize) ->
   Put db p w = (w, Returned (0, Some (ErrNoShelfFound (length p))))) /\
  (Put db p w = (w, Returned (0, Some (ErrNoShelfFound (length p)))) \/
   exists i s, shelves db !! i = Some s /\
               Z.of_nat (length p) + itemHeaderSize <= slotSize s /\
               Put db p w = handed_to s i p w).
Proof.
  intros Hhdr Hmax.
  assert (Hwrap : wrap_int (Z.of_nat (length p) + itemHeaderSize)
                  = Z.of_nat (length p) + itemHeaderSize).
  { apply wrap_int_small. unfold max_int in *. lia. }
  destruct (Put_cases db p w) as [Hnone Hcases]. split.
  - intros Hsmall. apply Hnone. intros i Hi Hfit.
    destruct (lookup_lt_is_Some_2 (shelves db) i Hi) as [s Hs].
    rewrite (fits_Some db p i s Hs), Hwrap in Hfit. apply Z.leb_le in Hfit.
    specialize (Hsmall i s Hs). lia.
  - destruct Hcases as [H | (i & s & Hs & Hfit & H)]; [left; exact H |].
    right. exists i, s. split; [exact Hs |]. split; [| exact H].
    rewrite (fits_Some db p i s Hs), Hwrap in Hfit. apply Z.leb_le. exact Hfit.
Qed.

Lemma Put_only_where_it_fits_witness :
  Put (mkDatabase [30; 10; 20]) (repeat x00 27) fresh
  = (fresh, Returned (0, Some (ErrNoShelfFound 27))).
Proof.
  destruct (Put_only_where_it_fits (mkDatabase (SL := recorder) [30; 10; 20])
              (repeat x00 27) fresh) as [H _].
  - vm_compute. discriminate.
  - vm_compute. discriminate.
  - apply H. intros i s Hi.
    destruct i as [| [| [| i]]]; simpl in Hi; try discriminate;
      injection Hi as <-; vm_compute; reflexivity.
Defined.

(** X14. A key that [Put] returns without error leads [Get] back to the
    slot it came from: [Put] got the slot from one shelf of the database,
    and when that slot is below 2^28 and the database has at most 4096
    shelves, [Get] on the key is [Get] of that shelf on that slot. *)
Theorem Put_then_Get `{SL : ShelfLayer} (db : database) (p : bytes)
    (w w1 : world) (key : Z) :
  (length (shelves db) <= 4096)%nat ->
  Put db p w = (w1, Returned (key, None)) ->
  exists i s slot,
    shelves db !! i = Some s /\
    shelf_Put s p w = (w1, (slot, None)) /\
    key = make_key slot i /\
    (0 <= slot < 2 ^ 28 ->
     forall w2, Get db key w2
                = (fst (shelf_Get s slot w2), Returned (snd (shelf_Get s slot w2)))).
Proof.
  intros Hlen HP.
  destruct (Put_cases db p w) as [_ [H | (i & s & Hs & _ & H)]];
    rewrite H in HP; [discriminate |].
  unfold handed_to in HP.
  destruct (shelf_Put s p w) as [w1' [slot [e |]]] eqn:E; cbn [fst snd] in HP;
    [discriminate |].
  injection HP as -> <-.
  exists i, s, slot. split; [exact Hs |]. split; [exact E |]. split; [reflexivity |].
  intros Hslot w2.
  assert (Hi : (i < 4096)%nat) by (apply lookup_lt_Some in Hs; lia).
  rewrite (Get_delegates db (make_key slot i) w2 s).
  - rewrite get_slot_make_key by assumption. reflexivity.
  - rewrite shelf_id_make_key, Nat2Z.id by assumption. exact Hs.
Qed.

Lemma Put_then_Get_witness :
  exists i s slot,
    [10; 20; 30] !! i = Some s /\ 268435456 = make_key slot i /\
    shelf_Put (ShelfLayer := recorder) s (repeat x01 7) fresh
    = (mkRecWorld [EvPut 20 (repeat x01 7)] [], (slot, None)).
Proof.
  assert (HP : Put (mkDatabase (SL := recorder) [10; 20; 30]) (repeat x01 7) fresh
               = (mkRecWorld [EvPut 20 (repeat x01 7)] [], Returned (268435456, None)))
    by reflexivity.
  destruct (Put_then_Get (mkDatabase (SL := recorder) [10; 20; 30]) (repeat x01 7)
              fresh _ _ ltac:(simpl; lia) HP)
    as (i & s & slot & Hs & Hput & Hk & _).
  exists i, s, slot. auto.
Defined.

(** X15. [Delete] on a key that [Put] returned: with the slot below 2^28
    and at most 4096 shelves, [Delete] goes to the shelf the slot came
    from, with the slot cut to its low 24 bits; that is the slot itself
    exactly when the slot is below 2^24. *)
Theorem Put_then_Delete `{SL : ShelfLayer} (db : database) (p : bytes)
    (w w1 : world) (key : Z) :
  (length (shelves db) <= 4096)%nat ->
  Put db p w = (w1, Returned (key, None)) ->
  exists i s slot,
    shelves db !! i = Some s /\
    shelf_Put s p w = (w1, (slot, None)) /\
    (0 <= slot < 2 ^ 28 ->
     (forall w2, Delete db key w2
                 = (fst (shelf_Delete s (slot mod 2 ^ 24) w2),
                    Returned (snd (shelf_Delete s (slot mod 2 ^ 24) w2)))) /\
     (slot mod 2 ^ 24 = slot <-> slot < 2 ^ 24)).
Proof.
  intros Hlen HP.
  destruct (Put_cases db p w) as [_ [H | (i & s & Hs & _ & H)]];
    rewrite H in HP; [discriminate |].
  unfold handed_to in HP.
  destruct (shelf_Put s p w) as [w1' [slot [e |]]] eqn:E; cbn [fst snd] in HP;
    [discriminate |].
  injection HP as -> <-.
  exists i, s, slot. split; [exact Hs |]. split; [exact E |].
  intros Hslot.
  assert (Hi : (i < 4096)%nat) by (apply lookup_lt_Some in Hs; lia).
  split.
  - intros w2. rewrite (Delete_delegates db (make_key slot i) w2 s).
    + rewrite delete_slot_get_slot, get_slot_make_key by assumption. reflexivity.
    + rewrite shelf_id_make_key, Nat2Z.id by assumption. exact Hs.
  - split; intros H1.
    + rewrite <- H1. apply Z.mod_pos_bound. lia.
    + apply Z.mod_small. lia.
Qed.

Lemma Put_then_Delete_witness :
  exists i s slot,
    [10; 20; 30] !! i = Some s /\
    shelf_Put (ShelfLayer := recorder) s (repeat x01 7) fresh
    = (mkRecWorld [EvPut 20 (repeat x01 7)] [], (slot, None)).
Proof.
  assert (HP : Put (mkDatabase (SL := recorder) [10; 20; 30]) (repeat x01 7) fresh
               = (mkRecWorld [EvPut 20 (repeat x01 7)] [], Returned (268435456, None)))
    by reflexivity.
  destruct (Put_then_Delete (mkDatabase (SL := recorder) [10; 20; 30]) (repeat x01 7)
              fresh _ _ ltac:(simpl; lia) HP)
    as (i & s & slot & Hs & Hput & _).
  exists i, s, slot. auto.
Defined.

(** ** Get and Delete *)


(** ** Limits *)

Lemma at_index_0 {A : Type} (l : list A) :
  at_index l 0 = match l !! 0%nat with
                 | Some x => Returned x
                 | None => Panicked (IndexOutOfRange 0 (Z.of_nat (length l)))
                 end.
Proof. reflexivity. Qed.

Lemma at_index_last {A : Type} (l : list A) (x : A) :
  last l = Some x -> at_index l (Z.of_nat (length l) - 1) = Returned x.
Proof.
  intros H. unfold at_index.
  assert (l <> []) by (intros ->; discriminate).
  assert (0 < length l)%nat by (destruct l; [congruence | simpl; lia]).
  destruct (Z.ltb_spec (Z.of_nat (length l) - 1) 0); [lia |].
  replace (Z.to_nat (Z.of_nat (length l) - 1)) with (pred (length l)) by lia.
  rewrite <- last_lookup, H. reflexivity.
Qed.

Lemma Limits_shape `{SL : ShelfLayer} (db : database) :
  shelves db <> [] ->
  exists first_shelf last_shelf,
    shelves db !! 0%nat = Some first_shelf /\
    last (shelves db) = Some last_shelf /\
    Limits db = Returned (slotSize first_shelf, slotSize last_shelf).
Proof.
  intros Hne. unfold Limits.
  destruct (shelves db) as [| s0 rest] eqn:E; [congruence |].
  destruct (last (s0 :: rest)) as [sl |] eqn:El.
  - exists s0, sl. rewrite at_index_0, (at_index_last _ _ El). auto.
  - apply last_None in El. discriminate.
Qed.

(** X17. [Limits] panics on a database without shelves, at [db.shelves[0]];
    on any other it returns the slot size of the first shelf and the slot
    size of the last. *)
Theorem Limits_first_and_last `{SL : ShelfLayer} (db : database) :
  (shelves db = [] -> Limits db = Panicked (IndexOutOfRange 0 0)) /\
  (shelves db <> [] ->
   exists first_shelf last_shelf,
     shelves db !! 0%nat = Some first_shelf /\
     last (shelves db) = Some last_shelf /\
     Limits db = Returned (slotSize first_shelf, slotSize last_shelf)).
Proof.
  split.
  - unfold Limits. intros ->. reflexivity.
  - apply Limits_shape.
Qed.

Lemma Limits_first_and_last_witness :
  Limits (mkDatabase (SL := recorder) []) = Panicked (IndexOutOfRange 0 0) /\
  Limits (mkDatabase (SL := recorder) [10; 20; 30]) = Returned (10, 30).
Proof.
  split.
  - apply (Limits_first_and_last (mkDatabase (SL := recorder) [])). reflexivity.
  - destruct (Limits_first_and_last (mkDatabase (SL := recorder) [10; 20; 30]))
      as [_ H].
    destruct H as (f & l & Hf & Hl & HL); [discriminate |].
    injection Hf as <-. injection Hl as <-. exact HL.
Defined.

(** X18. [Limits] does not panic on a database that [Open] returned. *)
Theorem Limits_after_Open `{SL : ShelfLayer} (opts : Options) (fn : SlotSizeFn)
    (onData : OnDataFn) (w w' : world) (db : database) :
  Open opts fn onData w = Some (w', inl db) ->
  exists smallest largest, Limits db = Returned (smallest, largest).
Proof.
  intros H. pose proof (Open_shelf_count _ _ _ _ _ _ H) as Hc.
  destruct (Limits_shape db) as (f & l & _ & _ & HL).
  - intros E. rewrite E in Hc. simpl in Hc. lia.
  - eauto.
Qed.

Lemma Limits_after_Open_witness :
  exists smallest largest,
    Limits (mkDatabase (SL := recorder) [10; 20]) = Returned (smallest, largest).
Proof.
  assert (HO : Open (SL := recorder) opts0 (SlotSizeLinear 10 3) None fresh
               = Some (mkRecWorld [EvOpen 10 false; EvOpen 20 false] [],
                       inl (mkDatabase (SL := recorder) [10; 20]))) by reflexivity.
  exact (Limits_after_Open _ _ _ _ _ _ HO).
Defined.

(** X19. On shelves in strictly ascending slot size, the two values of
    [Limits] bound the slot size of every shelf. *)
Theorem Limits_bounds `{SL : ShelfLayer} (db : database) (smallest largest : Z) :
  ascending (shelves db) ->
  Limits db = Returned (smallest, largest) ->
  forall i s, shelves db !! i = Some s -> smallest <= slotSize s <= largest.
Proof.
  intros Hasc HL i s Hi.
  destruct (Limits_shape db) as (f & l & Hf & Hl & HL').
  { intros E. rewrite E in Hi. discriminate. }
  rewrite HL' in HL. injection HL as <- <-.
  rewrite last_lookup in Hl.
  assert (Hlt : (i < length (shelves db))%nat) by (apply lookup_lt_Some in Hi; exact Hi).
  split.
  - destruct (Nat.eq_dec i 0%nat) as [-> | Hne].
    + rewrite Hf in Hi. injection Hi as <-. lia.
    + pose proof (Hasc 0%nat i f s Hf Hi ltac:(lia)). lia.
  - destruct (Nat.eq_dec i (pred (length (shelves db)))) as [-> | Hne].
    + rewrite Hl in Hi. injection Hi as <-. lia.
    + pose proof (Hasc i (pred (length (shelves db))) s l Hi Hl ltac:(lia)). lia.
Qed.

Lemma Limits_bounds_witness :
  10 <= 20 <= 30.
Proof.
  apply (Limits_bounds (mkDatabase (SL := recorder) [10; 20; 30]) 10 30
           ascending_10_20_30 eq_refl 1%nat 20 eq_refl).
Defined.

(** X20. On shelves in strictly ascending slot size, the larger value of
    [Limits] is the capacity of [Put]: a payload with [len(p) +
    itemHeaderSize] above it gets the "no shelf found" error and the world
    is as it was; any other payload is handed to a shelf that it fits. *)
Theorem Put_capacity_is_largest_limit `{SL : ShelfLayer} (db : database) (p : bytes)
    (w : world) (smallest largest : Z) :
  ascending (shelves db) ->
  0 <= itemHeaderSize ->
  Z.of_nat (length p) + itemHeaderSize <= max_int ->
  Limits db = Returned (smallest, largest) ->
  (largest < Z.of_nat (length p) + itemHeaderSize ->
   Put db p w = (w, Returned (0, Some (ErrNoShelfFound (length p))))) /\
  (Z.of_nat (length p) + itemHeaderSize <= largest ->
   exists i s, shelves db !! i = Some s /\
               Z.of_nat (length p) + itemHeaderSize <= slotSize s /\
               Put db p w = handed_to s i p w).
Proof.
  intros Hasc Hhdr Hmax HL.
  assert (Hwrap : wrap_int (Z.of_nat (length p) + itemHeaderSize)
                  = Z.of_nat (length p) + itemHeaderSize).
  { apply wrap_int_small. unfold max_int in *. lia. }
  assert (Hne : shelves db <> []).
  { intros E. unfold Limits in HL. rewrite E in HL. discriminate. }
  destruct (Limits_shape db Hne) as (f & l & Hf & Hl & HL').
  rewrite HL' in HL. injection HL as <- <-.
  rewrite last_lookup in Hl.
  destruct (Put_cases db p w) as [Hnone Hcases].
  split.
  - intros Hbig. apply Hnone. intros i Hi Hfit.
    destruct (lookup_lt_is_Some_2 (shelves db) i Hi) as [s Hs].
    rewrite (fits_Some db p i s Hs), Hwrap in Hfit. apply Z.leb_le in Hfit.
    destruct (Nat.eq_dec i (pred (length (shelves db)))) as [-> | Hni].
    + rewrite Hl in Hs. injection Hs as <-. lia.
    + pose proof (Hasc i (pred (length (shelves db))) s l Hs Hl ltac:(lia)). lia.
  - intros Hfits.
    destruct (Search_spec (length (shelves db)) (fits db p) (fits_monotone db p Hasc))
      as (Hle & Hbelow & _).
    assert (Hlast : fits db p (pred (length (shelves db))) = true).
    { rewrite (fits_Some db p _ l Hl), Hwrap. apply Z.leb_le. exact Hfits. }
    assert (Hlt : (Search (length (shelves db)) (fits db p) < length (shelves db))%nat).
    { destruct (Nat.lt_ge_cases (pred (length (shelves db)))
                  (Search (length (shelves db)) (fits db p))) as [Hc | Hc].
      - rewrite (Hbelow _ Hc) in Hlast. discriminate.
      - apply lookup_lt_Some in Hl. lia. }
    destruct (Search_sound (length (shelves db)) (fits db p)) as [_ Hfit].
    specialize (Hfit Hlt).
    destruct (lookup_lt_is_Some_2 (shelves db) _ Hlt) as [s Hs].
    exists (Search (length (shelves db)) (fits db p)), s.
    split; [exact Hs |]. split.
    + rewrite (fits_Some db p _ s Hs), Hwrap in Hfit. apply Z.leb_le. exact Hfit.
    + unfold Put, handed_to.
      destruct (Nat.eqb_spec (Search (length (shelves db)) (fits db p))
                  (length (shelves db))); [lia |].
      rewrite Hs. destruct (shelf_Put s p w) as [w1 [slot [e |]]]; reflexivity.
Qed.

Lemma Put_capacity_is_largest_limit_witness :
  Put (mkDatabase [10; 20; 30]) (repeat x00 27) fresh
  = (fresh, Returned (0, Some (ErrNoShelfFound 27))).
Proof.
  destruct (Put_capacity_is_largest_limit (mkDatabase (SL := recorder) [10; 20; 30])
              (repeat x00 27) fresh 10 30 ascending_10_20_30) as [H _].
  - vm_compute. discriminate.
  - vm_compute. discriminate.
  - reflexivity.
  - apply H. vm_compute. reflexivity.
Defined.

(** ** Keys given to the callback *)

(** X21. The callback that [wrapShelfDataFn] makes for shelf [i] turns a
    slot into the key that [Get] takes back to shelf [i] and that slot
    (for [i] below 4096 and a slot below 2^28), and passes the data on
    unchanged; a [nil] callback stays [nil]. *)
Theorem reported_keys_resolve `{SL : ShelfLayer} (db : database) (i : nat) (b : shelf)
    (f : Z -> bytes -> world -> world) (slot : Z) :
  shelves db !! i = Some b -> (i < 4096)%nat -> 0 <= slot < 2 ^ 28 ->
  wrapShelfDataFn i None = None /\
  exists g key,
    wrapShelfDataFn i (Some f) = Some g /\
    (forall data w, g slot data w = f key data w) /\
    (forall w, Get db key w
               = (fst (shelf_Get b slot w), Returned (snd (shelf_Get b slot w)))).
Proof.
  intros Hb Hi Hslot. split; [reflexivity |].
  eexists _, (make_key slot i). split; [reflexivity |].
  split; [reflexivity |].
  intros w. rewrite (Get_delegates db (make_key slot i) w b).
  - rewrite get_slot_make_key by assumption. reflexivity.
  - rewrite shelf_id_make_key, Nat2Z.id by assumption. exact Hb.
Qed.

Lemma reported_keys_resolve_witness :
  exists g key,
    wrapShelfDataFn (SL := recorder) 1 (Some (fun k _ w => record (EvGet 0 k) w)) = Some g /\
    (forall data w, g 5 data w = record (EvGet 0 key) w) /\
    (forall w, Get (mkDatabase (SL := recorder) [10; 20]) key w
               = (record (EvGet 20 5) w, Returned (snd (shelf_Get 20 5 w)))).
Proof.
  assert (H5 : 0 <= 5 < 2 ^ 28) by lia.
  assert (H1 : (1 < 4096)%nat) by lia.
  destruct (reported_keys_resolve (mkDatabase (SL := recorder) [10; 20]) 1%nat 20
              (fun k _ w => record (EvGet 0 k) w) 5 eq_refl H1 H5)
    as (_ & g & key & Hg & Hcall & HG).
  exists g, key. split; [exact Hg |]. split; [exact Hcall |].
  intros w. rewrite HG. f_equal.
  unfold shelf_Get, recorder.
  destruct (puts_of 20 (log w) !! Z.to_nat 5); reflexivity.
Defined.

(** ** Iterate *)

Lemma iterate_from_snoc `{SL : ShelfLayer}
    (shelf_Iterate : shelf -> OnDataFn -> world -> world)
    (i : nat) (ss : list shelf) (b : shelf) (onData : OnDataFn) (w : world) :
  iterate_from shelf_Iterate i (ss ++ [b]) onData w
  = shelf_Iterate b (wrapShelfDataFn (i + length ss) onData)
      (iterate_from shelf_Iterate i ss onData w).
Proof.
  revert i w. induction ss as [| s ss IH]; intros i w.
  - simpl. rewrite Nat.add_0_r. reflexivity.
  - simpl. rewrite IH. replace (S i + length ss)%nat with (i + S (length ss))%nat by lia.
    reflexivity.
Qed.

(** X22. [Iterate] goes through the shelves in index order, each once:
    it does nothing on a database without shelves, and with one more shelf
    at the end it first iterates the others and then that shelf, whose
    callback is [wrapShelfDataFn] at the index of that shelf. *)
Theorem Iterate_in_index_order `{SL : ShelfLayer}
    (shelf_Iterate : shelf -> OnDataFn -> world -> world)
    (ss : list shelf) (b : shelf) (onData : OnDataFn) (w : world) :
  Iterate shelf_Iterate (mkDatabase []) onData w = w /\
  Iterate shelf_Iterate (mkDatabase (ss ++ [b])) onData w
  = shelf_Iterate b (wrapShelfDataFn (length ss) onData)
      (Iterate shelf_Iterate (mkDatabase ss) onData w).
Proof.
  split; [reflexivity |].
  exact (iterate_from_snoc shelf_Iterate 0 ss b onData w).
Qed.

(** ** Close, from what it returns *)

Lemma last_failure_None_inv (rs : list (option error)) :
  last_failure rs = None -> Forall (fun r => r = None) rs.
Proof.
  induction rs as [| r rs IH]; intros H; [constructor |].
  simpl in H. destruct (last_failure rs) as [e |]; [discriminate |].
  constructor; auto.
Qed.

Lemma last_failure_Some_inv (rs : list (option error)) (e : error) :
  last_failure rs = Some e ->
  exists pre post, rs = pre ++ Some e :: post /\ Forall (fun r => r = None) post.
Proof.
  induction rs as [| r rs IH]; intros H; [discriminate |].
  simpl in H. destruct (last_failure rs) as [e' |] eqn:E.
  - injection H as ->. destruct (IH eq_refl) as (pre & post & -> & Hpost).
    exists (r :: pre), post. auto.
  - subst r. exists [], rs. split; [reflexivity |].
    apply last_failure_None_inv. exact E.
Qed.

Lemma Close_result `{SL : ShelfLayer} (db : database) (w : world) :
  Close db w
  = (fst (close_each (shelves db) w), last_failure (snd (close_each (shelves db) w))).
Proof.
  unfold Close. rewrite close_loop_close_each.
  destruct (last_failure (snd (close_each (shelves db) w))); reflexivity.
Qed.

(** X23. [Close] returns [nil] exactly when every shelf closed without
    error. *)
Theorem Close_nil_iff_all_closed `{SL : ShelfLayer} (db : database) (w : world) :
  snd (Close db w) = None
  <-> Forall (fun r => r = None) (snd (close_each (shelves db) w)).
Proof.
  rewrite Close_result. cbn [snd]. split.
  - apply last_failure_None_inv.
  - apply last_failure_none.
Qed.

(** X24. An error that [Close] returns is the error one of the shelves
    returned from its own [Close], and every shelf after that one closed
    without error: [Close] makes no error of its own. *)
Theorem Close_error_comes_from_a_shelf `{SL : ShelfLayer} (db : database)
    (w : world) (e : error) :
  snd (Close db w) = Some e ->
  exists i s,
    shelves db !! i = Some s /\
    snd (shelf_Close s (fst (close_each (take i (shelves db)) w))) = Some e /\
    forall j r, (i < j)%nat ->
      snd (close_each (shelves db) w) !! j = Some r -> r = None.
Proof.
  rewrite Close_result. cbn [snd]. intros H.
  destruct (last_failure_Some_inv _ _ H) as (pre & post & Hrs & Hpost).
  assert (Hi : snd (close_each (shelves db) w) !! length pre = Some (Some e)).
  { rewrite Hrs. rewrite lookup_app_r by lia.
    replace (length pre - length pre)%nat with 0%nat by lia. reflexivity. }
  assert (Hlt : (length pre < length (shelves db))%nat).
  { rewrite <- (close_each_length (shelves db) w).
    apply lookup_lt_Some in Hi. exact Hi. }
  destruct (lookup_lt_is_Some_2 (shelves db) _ Hlt) as [s Hs].
  exists (length pre), s. split; [exact Hs |]. split.
  - rewrite (close_each_lookup _ w _ s Hs) in Hi. injection Hi as Hi. exact Hi.
  - intros j r Hj Hr. rewrite Hrs in Hr.
    rewrite lookup_app_r in Hr by lia.
    destruct (j - length pre)%nat as [| k] eqn:Ek; [lia |].
    simpl in Hr. rewrite Forall_forall in Hpost.
    apply Hpost. apply list_elem_of_lookup. eauto.
Qed.

Lemma Close_error_comes_from_a_shelf_witness :
  exists i s,
    [10; 20; 30] !! i = Some s /\
    snd (shelf_Close (ShelfLayer := recorder) s
           (fst (close_each (take i [10; 20; 30])
                   (mkRecWorld [] [(10, "a"); (20, "b")]%string))))
    = Some (ErrShelf "b").
Proof.
  destruct (Close_error_comes_from_a_shelf (mkDatabase (SL := recorder) [10; 20; 30])
              (mkRecWorld [] [(10, "a"); (20, "b")]%string) (ErrShelf "b") eq_refl)
    as (i & s & Hs & He & _).
  exists i, s. auto.
Defined.
